(** * nanoid-go: the Nano ID reader of [nanoid.go], embedded and verified

    The embedding follows [nanoid.go] function by function.  Go's [int] is
    taken to be 64 bits wide (the platform of the README's benchmarks) and
    is written as [Z]; a [byte] is [Byte.byte], read as a number with
    [byte_val]; a byte slice and a Go [string] (indexed by byte) are both
    [list byte].  A call that panics or that would loop for ever is made
    explicit in the type [outcome]. *)

From Stdlib Require Import ZArith Lia Strings.String Strings.Byte.
From Stdlib Require Import Floats.SpecFloat.
From stdpp Require Import base list.

Local Open Scope Z_scope.

(** ** Values of the Go runtime *)

(** A Go [error] value.  The package only builds errors with [errors.New];
    [io.ErrShortBuffer] and [io.EOF] are built the same way in package io. *)
Record error := errors_New { Error : string }.

Definition io_ErrShortBuffer : error := errors_New "short buffer".
Definition io_EOF : error := errors_New "EOF".

(** The three ways a Go call can end in this development. *)
Inductive outcome (A : Type) : Type :=
| Returns (a : A)
| Panics (msg : string)
| Diverges.
Arguments Returns {A} a.
Arguments Panics {A} msg.
Arguments Diverges {A}.

Definition byte_val (b : byte) : Z := Z.of_N (Byte.to_N b).

(** The conversion [byte(x)] of an [int]: the low eight bits. *)
Definition to_byte (x : Z) : Z := x mod 256.

(** Arithmetic on [int] wraps around at 64 bits. *)
Definition int_wrap (x : Z) : Z := (x + 2 ^ 63) mod 2 ^ 64 - 2 ^ 63.

(** [len] of a slice or string, as an [int]. *)
Definition len {A} (l : list A) : Z := Z.of_nat (length l).

(** ** Constants of the package *)

Definition DefaultAlphabet : list byte :=
  list_byte_of_string
    "ModuleSymbhasOwnPr-0123456789ABCDEFGHNRVfgctiUvz_KqYTJkLxpZXIjQW".

Definition MaxAlphabetSize : Z := 256.

Definition bufSliceSize : Z := 128.

(** ** The random source: an [io.Reader] interface value

    An interface value is a dynamic type, a current value of that type and
    the method.  [io_Read st buf] is one call [Read(buf)] on the object in
    state [st], where [buf] is the content of the slice passed in: it gives
    the bytes the callee stored (laid over the slice from its start by
    [slice_store], so a callee can never change the slice's length), the
    count and the error it returned, and the object's next state. *)
Record io_Reader : Type := {
  io_state : Type;
  io_cur : io_state;
  io_Read : io_state -> list byte -> (list byte * Z * option error) * io_state
}.

Definition slice_store (buf stored : list byte) : list byte :=
  take (length buf) stored ++ drop (length stored) buf.

(** ** The reader *)

Record Reader : Type := {
  rander : option io_Reader;
  alphabet : list byte;
  mask : Z
}.

Definition set_mask (r : Reader) (m : Z) : Reader :=
  {| rander := rander r; alphabet := alphabet r; mask := m |}.

Definition set_alphabet (r : Reader) (a : list byte) : Reader :=
  {| rander := rander r; alphabet := a; mask := mask r |}.

Definition set_rander (r : Reader) (rd : option io_Reader) : Reader :=
  {| rander := rd; alphabet := alphabet r; mask := mask r |}.

(** [int(math.Log(float64(x)) / math.Ln2)] for the argument [x] that
    [initializeMask] passes.  That argument is [(size-1) | 1], an odd
    positive integer.  For [x = 1] the logarithm is exactly [0]; for an odd
    [x >= 3] the binary logarithm is no integer and lies further than
    [1/(2x)] from the nearest one, far more than the rounding error of the
    two float64 operations, so the truncation is the exact floor of the
    binary logarithm, which is [Z.log2]. *)
Definition math_Log2_int (x : Z) : Z := Z.log2 x.

(** [initializeMask]: panics on an empty alphabet, else stores the mask. *)
Definition initializeMask (r : Reader) : outcome Reader :=
  if len (alphabet r) =? 0 then Panics "nanoid: alphabet invalid"
  else
    let size := len (alphabet r) in
    let clz32 := Z.lor (31 - Z.lor (math_Log2_int (Z.lor (size - 1) 1)) 0) 0 in
    Returns (set_mask r (Z.shiftl 2 (31 - clz32) - 1)).

(** A [ReaderOption] works on the reader it is given and returns an error
    or [nil]. *)
Definition ReaderOption : Type := Reader -> outcome (Reader * option error).

Definition WithAlphabet (a : list byte) : ReaderOption := fun r =>
  if len a =? 0 then Returns (r, Some (errors_New "alphabet invalid"))
  else if len a >? MaxAlphabetSize
  then Returns (r, Some (errors_New "alphabet is too long"))
  else
    match initializeMask (set_alphabet r a) with
    | Returns r' => Returns (r', None)
    | Panics msg => Panics msg
    | Diverges => Diverges
    end.

Definition WithRandReader (rd : option io_Reader) : ReaderOption := fun r =>
  match rd with
  | None => Returns (r, Some (errors_New "nil rand reader"))
  | Some _ => Returns (set_rander r rd, None)
  end.

(** ** float64 arithmetic, as [getRandomSize] uses it

    The operations are those of the Standard Library's executable
    specification of IEEE 754 at the binary64 format. *)

Definition float64 : Type := spec_float.

Definition float64_mul : float64 -> float64 -> float64 := SFmul 53 1024.
Definition float64_div : float64 -> float64 -> float64 := SFdiv 53 1024.

(** The conversion [float64(x)] of an [int], rounded to nearest even. *)
Definition float64_of_int (x : Z) : float64 := binary_normalize 53 1024 x 0 false.

(** The constant [1.6] as a float64: [0x1.999999999999Ap+0]. *)
Definition float64_1_6 : float64 := S754_finite false 7205759403792794 (-52).

(** [math.Ceil]. *)
Definition math_Ceil (x : float64) : float64 :=
  match x with
  | S754_finite s m e =>
      if 0 <=? e then x
      else binary_normalize 53 1024
             (- ((- cond_Zopp s (Z.pos m)) / 2 ^ (- e))) 0 s
  | _ => x
  end.

(** The conversion [int(x)] of a float64: truncation toward zero; outside
    the range of [int], and for infinities and NaN, the amd64 conversion
    instruction gives the smallest [int]. *)
Definition int_of_float64 (x : float64) : Z :=
  match x with
  | S754_zero _ => 0
  | S754_finite s m e =>
      let t := if 0 <=? e then cond_Zopp s (Z.pos m) * 2 ^ e
               else Z.quot (cond_Zopp s (Z.pos m)) (2 ^ (- e)) in
      if (- 2 ^ 63 <=? t) && (t <? 2 ^ 63) then t else - 2 ^ 63
  | _ => - 2 ^ 63
  end.

(** [getRandomSize]. *)
Definition getRandomSize (r : Reader) (size : Z) : outcome Z :=
  if len (alphabet r) =? 0 then Panics "nanoid: alphabet invalid"
  else if mask r <=? 0 then Panics "nanoid: mask invalid"
  else
    let x := float64_div
               (float64_mul float64_1_6
                  (float64_of_int (int_wrap (mask r * size))))
               (float64_of_int (len (alphabet r))) in
    Returns (int_of_float64 (math_Ceil x)).

(** ** Read *)

(** One call of the source's [Read] on a slice holding [buf]: the slice
    afterwards, the returned count and error, and the source afterwards. *)
Definition call_Read (rd : io_Reader) (buf : list byte)
  : list byte * Z * option error * io_Reader :=
  let '(stored, cnt, err, st) := io_Read rd (io_cur rd) buf in
  (slice_store buf stored, cnt, err,
   {| io_state := io_state rd; io_cur := st; io_Read := io_Read rd |}).

(** What is observed of one call to the source. *)
Record event : Type := {
  ev_len : nat;            (* length of the slice passed to the source *)
  ev_buf : list byte;      (* content of that slice after the call *)
  ev_n : Z;                (* the count the source returned *)
  ev_err : option error    (* the error the source returned *)
}.

(** A call of [Read] seen from outside: how it ended, with [(n, err)] when
    it returned; the caller's slice [p] afterwards; the reader afterwards
    (only the source it points to can have moved); the calls made to the
    source, first call first. *)
Record ReadResult : Type := {
  res_out : outcome (nat * option error);
  res_p : list byte;
  res_reader : Reader;
  res_trace : list event
}.

Definition with_event (ev : event) (res : ReadResult) : ReadResult :=
  {| res_out := res_out res; res_p := res_p res;
     res_reader := res_reader res; res_trace := ev :: res_trace res |}.

(** The test of the inner loop:
    [position := random[index] & byte(r.mask)] and
    [position < byte(len(r.alphabet))]. *)
Definition position (r : Reader) (b : byte) : Z :=
  Z.land (byte_val b) (to_byte (mask r)).

Definition accepted (r : Reader) (b : byte) : bool :=
  position r b <? to_byte (len (alphabet r)).

(** How the inner loop [for index := range random] ends: the output is
    full and [Read] returns, or the batch is used up, or an index is out of
    range. *)
Inductive scanned : Type :=
| ScanFull (p : list byte) (n : nat)
| ScanMore (p : list byte) (n : nat)
| ScanPanic (msg : string) (p : list byte) (n : nat).

Fixpoint scan (r : Reader) (random p : list byte) (n : nat) : scanned :=
  match random with
  | [] => ScanMore p n
  | b :: random' =>
      if accepted r b then
        match alphabet r !! Z.to_nat (position r b) with
        | None => ScanPanic "index out of range" p n
        | Some c =>
            if (n <? length p)%nat then
              let p' := <[n := c]> p in
              let n' := S n in
              if (n' =? length p')%nat then ScanFull p' n'
              else scan r random' p' n'
            else ScanPanic "index out of range" p n
        end
      else scan r random' p n
  end.

(** The outer loop [for { ... }], one unit of [fuel] for each batch. *)
Fixpoint readLoop (fuel : nat) (r : Reader) (rd : io_Reader)
    (random p : list byte) (n : nat) : ReadResult :=
  match fuel with
  | O => {| res_out := Diverges; res_p := p;
            res_reader := set_rander r (Some rd); res_trace := [] |}
  | S fuel' =>
      let '(random1, cnt, err, rd1) := call_Read rd random in
      with_event {| ev_len := length random; ev_buf := random1;
                    ev_n := cnt; ev_err := err |}
        match err with
        | Some e =>
            {| res_out := Returns (n, Some e); res_p := p;
               res_reader := set_rander r (Some rd1); res_trace := [] |}
        | None =>
            match scan r random1 p n with
            | ScanFull p' n' =>
                {| res_out := Returns (n', None); res_p := p';
                   res_reader := set_rander r (Some rd1); res_trace := [] |}
            | ScanMore p' n' => readLoop fuel' r rd1 random1 p' n'
            | ScanPanic msg p' n' =>
                {| res_out := Panics msg; res_p := p';
                   res_reader := set_rander r (Some rd1); res_trace := [] |}
            end
        end
  end.

(** The loop of the default path:
    [p[index] = DefaultAlphabet[p[index]&63]]; [None] when an index is out
    of range. *)
Fixpoint encodeDefault (p : list byte) : option (list byte) :=
  match p with
  | [] => Some []
  | b :: p' =>
      match DefaultAlphabet !! Z.to_nat (Z.land (byte_val b) 63) with
      | None => None
      | Some c =>
          match encodeDefault p' with
          | None => None
          | Some q => Some (c :: q)
          end
      end
  end.

(** The scratch slice [random] of [size >= 0] bytes: the start of the
    pooled slice when [size <= bufSliceSize], else a fresh slice of zeros.
    [pooled] is the content of the 128-byte slice that [bufSlicePool.Get]
    hands out (whatever its last user left there). *)
Definition scratch (size : Z) (pooled : nat -> byte) : list byte :=
  if size <=? bufSliceSize
  then map pooled (seq 0 (Z.to_nat size))
  else replicate (Z.to_nat size) "000"%byte.

(** [Read]. *)
Definition Read (fuel : nat) (r : Reader) (pooled : nat -> byte)
    (p : list byte) : ReadResult :=
  let stop out := {| res_out := out; res_p := p; res_reader := r;
                     res_trace := [] |} in
  if len p =? 0 then stop (Returns (0%nat, Some io_ErrShortBuffer))
  else if len (alphabet r) =? 0 then
    match rander r with
    | None => stop (Panics "nil pointer dereference")
    | Some rd =>
        let '(p1, cnt, err, rd1) := call_Read rd p in
        with_event {| ev_len := length p; ev_buf := p1;
                      ev_n := cnt; ev_err := err |}
          match err with
          | Some e =>
              {| res_out := Returns (0%nat, Some e); res_p := p1;
                 res_reader := set_rander r (Some rd1); res_trace := [] |}
          | None =>
              match encodeDefault p1 with
              | Some p2 =>
                  {| res_out := Returns (length p, None); res_p := p2;
                     res_reader := set_rander r (Some rd1); res_trace := [] |}
              | None =>
                  {| res_out := Panics "index out of range"; res_p := p1;
                     res_reader := set_rander r (Some rd1); res_trace := [] |}
              end
          end
    end
  else
    match getRandomSize r (len p) with
    | Panics msg => stop (Panics msg)
    | Diverges => stop Diverges
    | Returns size =>
        if size <? 0 then stop (Panics "slice bounds out of range")
        else
          match rander r with
          | None => stop (Panics "nil pointer dereference")
          | Some rd => readLoop fuel r rd (scratch size pooled) p 0
          end
    end.

(** ** NewReader *)

(** The loop over the options: stops at the first error. *)
Fixpoint applyOptions (options : list ReaderOption) (reader : Reader)
  : outcome (option Reader * option error) :=
  match options with
  | [] => Returns (Some reader, None)
  | opt :: options' =>
      match opt reader with
      | Returns (reader', Some err) => Returns (None, Some err)
      | Returns (reader', None) => applyOptions options' reader'
      | Panics msg => Panics msg
      | Diverges => Diverges
      end
  end.

(** [NewReader]; [rand_Reader] is [crypto/rand.Reader]. *)
Definition NewReader (rand_Reader : io_Reader) (options : list ReaderOption)
  : outcome (option Reader * option error) :=
  applyOptions options
    {| rander := Some rand_Reader; alphabet := []; mask := 0 |}.

(** * What the properties are stated with *)

(** The mask [initializeMask] stores, as a function of the length. *)
Definition maskOf (size : Z) : Z := 2 ^ (1 + Z.log2 (Z.lor (size - 1) 1)) - 1.

(** The character an accepted byte stands for: [r.alphabet[position]]. *)
Definition symbol (r : Reader) (b : byte) : byte :=
  nth (Z.to_nat (position r b)) (alphabet r) "000"%byte.

(** The characters of the accepted bytes of a run of random bytes, in
    order. *)
Definition symbols (r : Reader) (bytes : list byte) : list byte :=
  symbol r <$> filter (fun b => accepted r b = true) bytes.

(** A call to the source that returned no error. *)
Definition ev_ok (ev : event) : Prop := ev_err ev = None.

(** The random bytes of a trace: the scratch slice after each call, one
    after the other. *)
Definition batch_bytes (tr : list event) : list byte := concat (ev_buf <$> tr).

(** The invariant of the data model on the mask. *)
Definition mask_valid (r : Reader) : Prop :=
  exists k, 0 <= k /\ mask r = 2 ^ k - 1 /\
            len (alphabet r) - 1 <= mask r /\ mask r < 2 * len (alphabet r).

(** A run of calls of [Read] on one reader, each with its fuel, the content
    of the pooled slice and the caller's slice. *)
Fixpoint reads (calls : list (nat * (nat -> byte) * list byte)) (r : Reader)
  : Reader :=
  match calls with
  | [] => r
  | (fuel, pooled, p) :: calls' =>
      reads calls' (res_reader (Read fuel r pooled p))
  end.

(** ** The source and the alphabet of the package's tests *)

Definition customAlphabet : list byte :=
  list_byte_of_string
    "0123456789ABCDEFGHIJKLMNOPQRSTUVWXYZ_abcdefghijklmnopqrstuvwxyz-".

(** [customRandReader.Read]: [io.EOF] when [data] is nil or shorter than
    the slice, after copying what there is. *)
Definition customRandReader_Read (data : option (list byte)) (p : list byte)
  : (list byte * Z * option error) * option (list byte) :=
  match data with
  | None => (([], 0, Some io_EOF), data)
  | Some d =>
      let nc := Nat.min (length p) (length d) in
      ((take nc d, Z.of_nat nc,
        if (nc <? length p)%nat then Some io_EOF else None), data)
  end.

Definition customRandReader (data : option (list byte)) : io_Reader :=
  {| io_state := option (list byte); io_cur := data;
     io_Read := customRandReader_Read |}.

Definition byte_of_int (x : Z) : byte :=
  default "000"%byte (Byte.of_N (Z.to_N (to_byte x))).

(** [newCustomRandReader(size)], for [size >= 1]: the bytes 0..254 in a
    cycle. *)
Definition newCustomRandReader (size : nat) : io_Reader :=
  customRandReader
    (Some ((fun i => byte_of_int (Z.of_nat i mod 255)) <$> seq 0 size)).

(** A reader as [NewReader()] builds it around a given source. *)
Definition defaultReaderOn (rd : io_Reader) : Reader :=
  {| rander := Some rd; alphabet := []; mask := 0 |}.

(** A source that plays a script: each call gives the next response, and
    [io.EOF] once the script is used up. *)
Definition scriptedReader_Read (script : list (list byte * Z * option error))
    (p : list byte)
  : (list byte * Z * option error) * list (list byte * Z * option error) :=
  match script with
  | [] => (([], 0, Some io_EOF), [])
  | response :: script' => (response, script')
  end.

Definition scriptedReader (script : list (list byte * Z * option error))
  : io_Reader :=
  {| io_state := list (list byte * Z * option error); io_cur := script;
     io_Read := scriptedReader_Read |}.

(** The pooled slice when it was never used: all zero. *)
Definition freshPool : nat -> byte := fun _ => "000"%byte.

(** A reader over the alphabet "ab" as [NewReader] configures it. *)
Definition abReader (rd : io_Reader) : Reader :=
  {| rander := Some rd; alphabet := ["a"; "b"]%byte; mask := 1 |}.



(** The symbol the default path stores for a byte. *)
Definition defaultSymbol (b : byte) : byte :=
  nth (Z.to_nat (Z.land (byte_val b) 63)) DefaultAlphabet "000"%byte.

(** The bytes 0, 1, ..., 20. *)
Definition bytes_0_20 : list byte :=
  (fun i => byte_of_int (Z.of_nat i)) <$> seq 0 21.

(** ** The options a caller can build

    The fields of [Reader] are not exported, so outside the package an
    option is [WithAlphabet(a)] or [WithRandReader(rd)]. *)
Inductive option_arg : Type :=
| AlphabetArg (a : list byte)
| RandReaderArg (rd : option io_Reader).

Definition option_of (o : option_arg) : ReaderOption :=
  match o with
  | AlphabetArg a => WithAlphabet a
  | RandReaderArg rd => WithRandReader rd
  end.

(** The validation of section 4.4 of the specification, in its words: an
    alphabet fails if it is empty or longer than 256, a random source fails
    if it is absent. *)
Definition spec_validate (o : option_arg) : option error :=
  match o with
  | AlphabetArg a =>
      if len a =? 0 then Some (errors_New "alphabet invalid")
      else if 256 <? len a then Some (errors_New "alphabet is too long")
      else None
  | RandReaderArg None => Some (errors_New "nil rand reader")
  | RandReaderArg (Some _) => None
  end.

(** The configuration a valid option leaves, in the words of section 4.4:
    the alphabet with its mask recomputed, or the random source. *)
Definition spec_configure (r : Reader) (o : option_arg) : Reader :=
  match o with
  | AlphabetArg a =>
      {| rander := rander r; alphabet := a; mask := maskOf (len a) |}
  | RandReaderArg rd =>
      {| rander := rd; alphabet := alphabet r; mask := mask r |}
  end.

(** What [NewReader] guarantees of the reader it returns. *)
Definition constructed (r : Reader) : Prop :=
  rander r <> None /\
  (alphabet r = [] \/
   (1 <= len (alphabet r) <= 256 /\ mask r = maskOf (len (alphabet r)))).

(** An alphabet of 256 symbols: every byte value once. *)
Definition alphabet256 : list byte :=
  (fun i => byte_of_int (Z.of_nat i)) <$> seq 0 256.

(** The reader [NewReader(WithRandReader(src), WithAlphabet(alphabet256))]
    returns, where [src] is the cyclic source of the tests. *)
Definition reader256 : Reader :=
  {| rander := Some (newCustomRandReader 1024); alphabet := alphabet256;
     mask := 255 |}.

(** What the source gives over [k] calls on the scratch slice, each call
    seeing the slice as the call before left it: the content of the slice
    and the error after each call. *)
Fixpoint batches (k : nat) (rd : io_Reader) (random : list byte)
  : list (list byte * option error) :=
  match k with
  | O => []
  | S k' =>
      let '(random1, cnt, err, rd1) := call_Read rd random in
      (random1, err) :: batches k' rd1 random1
  end.

(** ** Rounding to nearest even, on integers

    [N] and [D > 0] stand for the rational [N / D].  A [shr_record] holds
    the integer part of a number together with two bits that locate its
    fractional part: none, below one half, one half, above one half. *)
Definition round_bit (N D : Z) : bool := D <=? 2 * (N mod D).

Definition sticky_bit (N D : Z) : bool :=
  negb (N mod D =? 0) && negb (2 * (N mod D) =? D).

Definition located (N D : Z) : shr_record :=
  {| shr_m := N / D; shr_r := round_bit N D; shr_s := sticky_bit N D |}.

(** [N / D] rounded to the nearest integer, ties to even. *)
Definition rne (N D : Z) : Z :=
  if round_bit N D && (sticky_bit N D || Z.odd (N / D)) then N / D + 1
  else N / D.

(** [N / D * 2^e], for [N / D >= 2^52], rounded to a 53-bit mantissa and
    its exponent. *)
Definition round53 (N D e : Z) : Z * Z :=
  let n := Z.log2 (N / D) - 52 in
  let M := rne N (D * 2 ^ n) in
  if M <? 2 ^ 53 then (M, e + n) else (2 ^ 52, e + n + 1).

(** [a / b] rounded up, for [b > 0]. *)
Definition ceil_div (a b : Z) : Z := - ((- a) / b).

(** The batch size of section 4.2 of the specification, in its words:
    [ceil(1.6 * M * N / L)], the rational [8 M N / (5 L)] rounded up. *)
Definition spec_batch_size (M N L : Z) : Z := ceil_div (8 * (M * N)) (5 * L).

(** The 53-bit mantissa of a positive integer below [2^53]. *)
Definition mant (k : Z) : Z := k * 2 ^ (52 - Z.log2 k).

(** ** The package-level functions *)

(** [zeroString]. *)
Definition zeroString : list byte := [].

(** A call of [NewWithSize] seen from outside: how it ended, with
    [(id, err)] when it returned; the slice the call took from
    [bufSlicePool] as the deferred [Put] hands it back (the slice as it
    was when none was taken); [defaultReader] afterwards; the calls made to
    the source. *)
Record NewResult : Type := {
  new_out : outcome (list byte * option error);
  new_pool : nat -> byte;
  new_reader : Reader;
  new_trace : list event
}.

(** A pooled slice whose first bytes were overwritten through [buf], the
    slice of its first [size] bytes, which shares its storage. *)
Definition put_back (pooled : nat -> byte) (buf : list byte) : nat -> byte :=
  fun i => default (pooled i) (buf !! i).

(** The package's [Read]: [defaultReader.Read(p)]. *)
Definition package_Read (fuel : nat) (defaultReader : Reader)
    (pooled : nat -> byte) (p : list byte) : ReadResult :=
  Read fuel defaultReader pooled p.

(** [NewWithSize]. [defaultReader] is the package variable as the call
    finds it; [pooled] is the slice its own [Get] returns and [pooled'] the
    one a [Get] inside [Read] returns while the first is in use. As in
    [scratch], [make] is taken to succeed. *)
Definition NewWithSize (fuel : nat) (defaultReader : Reader)
    (pooled pooled' : nat -> byte) (size : Z) : NewResult :=
  if size <? 1 then
    {| new_out := Returns (zeroString, Some (errors_New "size is too small"));
       new_pool := pooled; new_reader := defaultReader; new_trace := [] |}
  else
    let buf := scratch size pooled in
    let res := package_Read fuel defaultReader pooled' buf in
    {| new_out :=
         match res_out res with
         | Returns (_, Some err) => Returns (zeroString, Some err)
         | Returns (_, None) => Returns (res_p res, None)
         | Panics msg => Panics msg
         | Diverges => Diverges
         end;
       new_pool := if size <=? bufSliceSize then put_back pooled (res_p res)
                   else pooled;
       new_reader := res_reader res;
       new_trace := res_trace res |}.


(** ** Counting byte values *)

(** Every value of a byte, in increasing order. *)
Definition all_bytes : list byte :=
  (fun i => byte_of_int (Z.of_nat i)) <$> seq 0 256.

(** The byte values the custom path turns into the character [c]. *)
Definition hits (r : Reader) (c : byte) : list byte :=
  List.filter (fun b => accepted r b && Byte.eqb (symbol r b) c) all_bytes.

(** The byte values the default path turns into the character [c]. *)
Definition defaultHits (c : byte) : list byte :=
  List.filter (fun b => Byte.eqb (defaultSymbol b) c) all_bytes.

(** The byte values the custom path accepts. *)
Definition acceptedBytes (r : Reader) : list byte :=
  List.filter (accepted r) all_bytes.

(** The byte values whose low bits under [m] are [i]. *)
Definition masked (m i : Z) : list byte :=
  List.filter (fun b => Z.land (byte_val b) m =? i) all_bytes.

(** ** Sources that overwrite the whole slice *)

(** What a source answers does not depend on what the slice holds. *)
Definition oblivious (rd : io_Reader) : Prop :=
  forall st buf buf',
    length buf = length buf' -> io_Read rd st buf = io_Read rd st buf'.

(** A call without error stores at least as many bytes as the slice has. *)
Definition fills (rd : io_Reader) : Prop :=
  forall st buf,
    (io_Read rd st buf).1.2 = None ->
    (length buf <= length (io_Read rd st buf).1.1.1)%nat.

(** ** The options of a list, by kind *)

Definition alphabets_of (opts : list option_arg) : list (list byte) :=
  omap (fun o => match o with AlphabetArg a => Some a | _ => None end) opts.

Definition sources_of (opts : list option_arg) : list io_Reader :=
  omap (fun o => match o with RandReaderArg rd => rd | _ => None end) opts.

(** An option [NewReader] accepts: the checks of [WithAlphabet] and
    [WithRandReader]. *)
Definition accepted_option (o : option_arg) : Prop :=
  match o with
  | AlphabetArg a => 1 <= len a <= MaxAlphabetSize
  | RandReaderArg rd => rd <> None
  end.

(** * Properties *)

(** ** The mask *)

Lemma len_nonneg {A} (l : list A) : 0 <= len l.
Proof. unfold len. lia. Qed.

Lemma len_nil_iff {A} (l : list A) : len l = 0 <-> l = [].
Proof. unfold len. destruct l; simpl; split; intros; done. Qed.

Lemma initializeMask_eq (r : Reader) :
  alphabet r <> [] ->
  initializeMask r = Returns (set_mask r (maskOf (len (alphabet r)))).
Proof.
  intros Hne. unfold initializeMask, maskOf, math_Log2_int.
  destruct (len (alphabet r) =? 0) eqn:E.
  - apply Z.eqb_eq, len_nil_iff in E. contradiction.
  - rewrite !Z.lor_0_r.
    assert (Hl : 0 <= Z.log2 (Z.lor (len (alphabet r) - 1) 1)) by apply Z.log2_nonneg.
    replace (31 - (31 - Z.log2 (Z.lor (len (alphabet r) - 1) 1)))
      with (Z.log2 (Z.lor (len (alphabet r) - 1) 1)) by lia.
    rewrite Z.shiftl_mul_pow2 by assumption.
    rewrite Z.pow_add_r by lia. reflexivity.
Qed.

Lemma log2_lor_1 (x : Z) : 1 <= x -> Z.log2 (Z.lor x 1) = Z.log2 x.
Proof.
  intros Hx. rewrite Z.log2_lor by lia.
  change (Z.log2 1) with 0. pose proof (Z.log2_nonneg x). lia.
Qed.

Lemma maskOf_1 : maskOf 1 = 1.
Proof. reflexivity. Qed.

Lemma maskOf_log2_up (size : Z) : 2 <= size -> maskOf size = 2 ^ Z.log2_up size - 1.
Proof.
  intros H. unfold maskOf. rewrite log2_lor_1 by lia.
  rewrite Z.log2_up_eqn by lia. rewrite <- Z.sub_1_r. f_equal. f_equal. lia.
Qed.

Lemma maskOf_bounds (size : Z) :
  1 <= size -> size - 1 <= maskOf size < 2 * size.
Proof.
  intros H. destruct (Z.eq_dec size 1) as [->|Hn]; [rewrite maskOf_1; lia|].
  unfold maskOf. rewrite log2_lor_1 by lia.
  pose proof (Z.log2_spec (size - 1) ltac:(lia)) as [Hlo Hhi].
  pose proof (Z.log2_nonneg (size - 1)).
  rewrite Z.pow_add_r by lia. change (2 ^ 1) with 2.
  replace (Z.succ (Z.log2 (size - 1))) with (Z.log2 (size - 1) + 1) in Hhi by lia.
  rewrite Z.pow_add_r in Hhi by lia. change (2 ^ 1) with 2 in Hhi. lia.
Qed.

(** ** The two loops of the custom path *)

Lemma byte_val_range (b : byte) : 0 <= byte_val b < 256.
Proof.
  unfold byte_val. pose proof (Byte.to_N_bounded b). lia.
Qed.

Lemma to_byte_len_le {A} (l : list A) : to_byte (len l) <= len l.
Proof.
  unfold to_byte. pose proof (len_nonneg l).
  apply Z.mod_le; lia.
Qed.

Lemma position_nonneg (r : Reader) (b : byte) : 0 <= position r b.
Proof.
  unfold position. apply Z.land_nonneg. left. apply byte_val_range.
Qed.

Lemma accepted_lookup (r : Reader) (b : byte) :
  accepted r b = true ->
  alphabet r !! Z.to_nat (position r b) = Some (symbol r b).
Proof.
  unfold accepted. intros H. apply Z.ltb_lt in H.
  pose proof (position_nonneg r b). pose proof (to_byte_len_le (alphabet r)).
  unfold symbol. rewrite nth_lookup.
  destruct (alphabet r !! Z.to_nat (position r b)) eqn:E; [reflexivity|].
  apply lookup_ge_None in E. unfold len in *. lia.
Qed.

Lemma take_S_insert {A} (p : list A) (n : nat) (c : A) :
  (n < length p)%nat -> take (S n) (<[n:=c]> p) = take n p ++ [c].
Proof.
  intros H. rewrite (take_S_r _ n c) by (apply list_lookup_insert_eq; lia).
  rewrite take_insert_ge by lia. reflexivity.
Qed.

Lemma scan_spec (r : Reader) (random : list byte) :
  forall (p : list byte) (n : nat),
    (n < length p)%nat ->
    match scan r random p n with
    | ScanMore p' n' =>
        n' = (n + length (symbols r random))%nat /\ (n' < length p)%nat /\
        p' = take n p ++ symbols r random ++ drop n' p
    | ScanFull p' n' =>
        n' = length p /\ (length p <= n + length (symbols r random))%nat /\
        p' = take n p ++ take (length p - n) (symbols r random)
    | ScanPanic _ _ _ => False
    end.
Proof.
  induction random as [|b random IH]; intros p n Hn; cbn [scan].
  - unfold symbols; simpl. split; [lia|]. split; [lia|].
    rewrite take_drop. reflexivity.
  - unfold symbols. rewrite filter_cons.
    destruct (accepted r b) eqn:Hacc.
    + rewrite decide_True by reflexivity. rewrite fmap_cons.
      fold (symbols r random).
      rewrite (accepted_lookup r b Hacc).
      destruct (n <? length p)%nat eqn:Hlt; [|apply Nat.ltb_ge in Hlt; lia].
      rewrite length_insert.
      destruct (S n =? length p)%nat eqn:Hfull.
      * apply Nat.eqb_eq in Hfull. split; [done|]. split; [simpl; lia|].
        rewrite insert_take_drop by lia.
        replace (length p - n)%nat with 1%nat by lia. simpl.
        rewrite take_0. f_equal.
        rewrite drop_ge by lia. reflexivity.
      * apply Nat.eqb_neq in Hfull.
        specialize (IH (<[n:=symbol r b]> p) (S n)).
        rewrite length_insert in IH. specialize (IH ltac:(lia)).
        destruct (scan r random (<[n:=symbol r b]> p) (S n)) as [p' n'|p' n'|];
          [| |done].
        -- destruct IH as (-> & Hle & ->). split; [done|]. split; [simpl; lia|].
           rewrite take_S_insert by lia. rewrite <- app_assoc. simpl.
           replace (length p - n)%nat with (S (length p - S n)) by lia.
           reflexivity.
        -- destruct IH as (-> & Hle & ->). split; [simpl; lia|]. split; [lia|].
           rewrite take_S_insert by lia. rewrite <- app_assoc. simpl.
           rewrite drop_insert_lt by lia.
           replace (n + S (length (symbols r random)))%nat
             with (S n + length (symbols r random))%nat by lia.
           reflexivity.
    + rewrite decide_False by discriminate.
      fold (symbols r random). apply IH. exact Hn.
Qed.

Lemma symbols_app (r : Reader) (l1 l2 : list byte) :
  symbols r (l1 ++ l2) = symbols r l1 ++ symbols r l2.
Proof. unfold symbols. rewrite filter_app, fmap_app. reflexivity. Qed.

Lemma batch_bytes_cons (ev : event) (tr : list event) :
  batch_bytes (ev :: tr) = ev_buf ev ++ batch_bytes tr.
Proof. reflexivity. Qed.

Section Splice.
  Context {A : Type} (p s : list A) (n n' : nat).
  Hypothesis Hn' : n' = (n + length s)%nat.
  Hypothesis Hle : (n' <= length p)%nat.

Lemma splice_length : length (take n p ++ s ++ drop n' p) = length p.
Proof. rewrite !length_app, length_take, length_drop. lia. Qed.

Lemma splice_take : take n' (take n p ++ s ++ drop n' p) = take n p ++ s.
Proof.
  rewrite app_assoc. apply take_app_length'.
  rewrite length_app, length_take. lia.
Qed.

Lemma splice_drop (m : nat) :
  (n' <= m)%nat -> drop m (take n p ++ s ++ drop n' p) = drop m p.
Proof.
  intros Hm. rewrite app_assoc, drop_app.
  rewrite drop_ge by (rewrite length_app, length_take; lia).
  rewrite length_app, length_take, drop_drop. simpl. f_equal. lia.
Qed.

End Splice.

Lemma slice_store_length (buf stored : list byte) :
  length (slice_store buf stored) = length buf.
Proof.
  unfold slice_store. rewrite length_app, length_take, length_drop. lia.
Qed.

Lemma call_Read_length (rd : io_Reader) (buf buf' : list byte) cnt err rd' :
  call_Read rd buf = (buf', cnt, err, rd') -> length buf' = length buf.
Proof.
  unfold call_Read. destruct (io_Read rd (io_cur rd) buf) as [[[stored c] e] st].
  intros [= <- _ _ _]. apply slice_store_length.
Qed.

(** What the loop does, from any of its states [(random, p, n)]. *)
Lemma readLoop_spec (fuel : nat) (r : Reader) :
  forall (rd : io_Reader) (random p : list byte) (n : nat),
    (n < length p)%nat ->
    let res := readLoop fuel r rd random p n in
    let tr := res_trace res in
    Forall (fun ev => ev_len ev = length random /\
                      length (ev_buf ev) = length random) tr /\
    match res_out res with
    | Returns (n', None) =>
        Forall ev_ok tr /\ n' = length p /\
        (length p <= n + length (symbols r (batch_bytes tr)))%nat /\
        res_p res = take n p ++ take (length p - n) (symbols r (batch_bytes tr))
    | Returns (n', Some e) =>
        exists pre ev,
          tr = pre ++ [ev] /\ ev_err ev = Some e /\ Forall ev_ok pre /\
          n' = (n + length (symbols r (batch_bytes pre)))%nat /\
          (n' < length p)%nat /\
          res_p res = take n p ++ symbols r (batch_bytes pre) ++ drop n' p
    | Diverges =>
        length tr = fuel /\ Forall ev_ok tr /\
        (n + length (symbols r (batch_bytes tr)) < length p)%nat /\
        res_p res = take n p ++ symbols r (batch_bytes tr) ++
                    drop (n + length (symbols r (batch_bytes tr))) p
    | Panics _ => False
    end.
Proof.
  induction fuel as [|fuel IH]; intros rd random p n Hn; cbn [readLoop].
  - unfold batch_bytes, symbols. simpl.
    split; [constructor|]. split; [done|]. split; [constructor|].
    split; [lia|]. rewrite Nat.add_0_r, take_drop. reflexivity.
  - destruct (call_Read rd random) as [[[random1 cnt] err] rd1] eqn:Hcall.
    pose proof (call_Read_length _ _ _ _ _ _ Hcall) as Hlen1.
    destruct err as [e|].
    + simpl. split; [repeat constructor; simpl; done|].
      exists [], {| ev_len := length random; ev_buf := random1;
                    ev_n := cnt; ev_err := Some e |}.
      unfold batch_bytes, symbols. simpl.
      split; [done|]. split; [done|]. split; [constructor|].
      split; [lia|]. split; [lia|]. rewrite take_drop. reflexivity.
    + pose proof (scan_spec r random1 p n Hn) as Hscan.
      destruct (scan r random1 p n) as [p' n'|p' n'|]; [| |done].
      * destruct Hscan as (-> & Hle & ->). simpl.
        split; [repeat constructor; simpl; done|].
        split; [repeat constructor|]. split; [done|].
        unfold batch_bytes. simpl. rewrite app_nil_r. done.
      * destruct Hscan as (-> & Hlt & ->).
        set (s1 := symbols r random1) in *.
        set (n1 := (n + length s1)%nat) in *.
        set (p1 := take n p ++ s1 ++ drop n1 p).
        assert (Hp1 : length p1 = length p)
          by (apply splice_length; [reflexivity|lia]).
        specialize (IH rd1 random1 p1 n1 ltac:(lia)).
        destruct IH as [IHlen IH].
        cbn [with_event res_out res_trace res_p].
        split.
        { constructor; [simpl; done|].
          eapply Forall_impl; [exact IHlen|]. simpl. intros ev. lia. }
        destruct (res_out (readLoop fuel r rd1 random1 p1 n1)) as [[m [e|]]|msg|].
        -- destruct IH as (pre & ev & Htr & Herr & Hok & -> & Hm & Hres).
           exists ({| ev_len := length random; ev_buf := random1;
                      ev_n := cnt; ev_err := None |} :: pre), ev.
           rewrite Htr. split; [done|]. split; [done|].
           split; [constructor; [done|exact Hok]|].
           rewrite batch_bytes_cons, symbols_app. cbn [ev_buf]. fold s1.
           rewrite length_app. split; [lia|]. split; [lia|].
           rewrite Hres. unfold p1.
           rewrite splice_take by (reflexivity || lia).
           rewrite splice_drop by (reflexivity || lia).
           rewrite <- !app_assoc. reflexivity.
        -- destruct IH as (Hok & -> & Hfill & Hres).
           split; [constructor; [done|exact Hok]|]. split; [lia|].
           rewrite batch_bytes_cons, symbols_app. cbn [ev_buf]. fold s1.
           rewrite length_app. split; [lia|].
           rewrite Hres. unfold p1 at 1.
           rewrite splice_take by (reflexivity || lia).
           rewrite Hp1. rewrite take_app.
           rewrite (take_ge s1) by lia.
           rewrite <- !app_assoc. do 3 f_equal. lia.
        -- done.
        -- destruct IH as (Hfuel & Hok & Hm & Hres).
           split; [simpl; lia|]. split; [constructor; [done|exact Hok]|].
           rewrite batch_bytes_cons, symbols_app. cbn [ev_buf]. fold s1.
           rewrite length_app. split; [lia|].
           rewrite Hres. unfold p1.
           rewrite splice_take by (reflexivity || lia).
           rewrite splice_drop by (reflexivity || lia).
           rewrite <- !app_assoc. do 4 f_equal. subst n1. lia.
Qed.

(** ** The mask that [WithAlphabet] stores *)

Lemma WithAlphabet_ok (a : list byte) (r : Reader) :
  1 <= len a <= 256 ->
  WithAlphabet a r =
  Returns ({| rander := rander r; alphabet := a; mask := maskOf (len a) |}, None).
Proof.
  intros [Hlo Hhi]. unfold WithAlphabet, MaxAlphabetSize.
  destruct (len a =? 0) eqn:E0; [apply Z.eqb_eq in E0; lia|].
  destruct (len a >? 256) eqn:E1; [apply Z.gtb_gt in E1; lia|].
  rewrite initializeMask_eq.
  - reflexivity.
  - simpl. intros ->. discriminate.
Qed.

Lemma maskOf_valid (a : list byte) (rd : option io_Reader) :
  1 <= len a ->
  mask_valid {| rander := rd; alphabet := a; mask := maskOf (len a) |}.
Proof.
  intros H. exists (1 + Z.log2 (Z.lor (len a - 1) 1)). simpl.
  pose proof (Z.log2_nonneg (Z.lor (len a - 1) 1)).
  pose proof (maskOf_bounds (len a) H).
  split; [lia|]. split; [reflexivity|]. lia.
Qed.

Lemma readLoop_config (fuel : nat) (r : Reader) :
  forall rd random p n,
    alphabet (res_reader (readLoop fuel r rd random p n)) = alphabet r /\
    mask (res_reader (readLoop fuel r rd random p n)) = mask r.
Proof.
  induction fuel as [|fuel IH]; intros rd random p n; cbn [readLoop].
  - done.
  - destruct (call_Read rd random) as [[[random1 cnt] err] rd1].
    destruct err as [e|]; [done|].
    destruct (scan r random1 p n); [done| |done].
    apply IH.
Qed.

(** [Read] leaves the alphabet and the mask of its reader alone. *)
Lemma Read_config (fuel : nat) (r : Reader) (pooled : nat -> byte) (p : list byte) :
  alphabet (res_reader (Read fuel r pooled p)) = alphabet r /\
  mask (res_reader (Read fuel r pooled p)) = mask r.
Proof.
  unfold Read.
  destruct (len p =? 0); [done|].
  destruct (len (alphabet r) =? 0).
  - destruct (rander r) as [rd|]; [|done].
    destruct (call_Read rd p) as [[[p1 cnt] err] rd1].
    destruct err; [done|]. destruct (encodeDefault p1); done.
  - destruct (getRandomSize r (len p)); [|done|done].
    destruct (a <? 0); [done|].
    destruct (rander r); [|done]. apply readLoop_config.
Qed.

Lemma reads_config (calls : list (nat * (nat -> byte) * list byte)) :
  forall r, alphabet (reads calls r) = alphabet r /\ mask (reads calls r) = mask r.
Proof.
  induction calls as [|[[fuel pooled] p] calls IH]; intros r; simpl; [done|].
  destruct (IH (res_reader (Read fuel r pooled p))) as [-> ->].
  apply Read_config.
Qed.

Lemma mask_valid_config (r r' : Reader) :
  alphabet r' = alphabet r -> mask r' = mask r -> mask_valid r -> mask_valid r'.
Proof. unfold mask_valid. intros -> ->. done. Qed.

(** C8. For every alphabet length in [1,256] the mask that [WithAlphabet]
    stores is of the form [2^k - 1], is at least [L - 1] and is below
    [2 L]; and no later call of [Read] on the reader changes the alphabet or
    the mask, so the predicate holds after every run of calls. *)
Theorem C8_mask_invariant (a : list byte) (r : Reader) :
  1 <= len a <= 256 ->
  exists r',
    WithAlphabet a r = Returns (r', None) /\ mask_valid r' /\
    forall calls,
      alphabet (reads calls r') = a /\ mask (reads calls r') = mask r' /\
      mask_valid (reads calls r').
Proof.
  intros H. eexists. split; [apply WithAlphabet_ok; exact H|].
  split; [apply maskOf_valid; lia|].
  intros calls.
  match goal with |- context [reads calls ?x] =>
    destruct (reads_config calls x) as [Ha Hm] end.
  split; [exact Ha|]. split; [exact Hm|].
  eapply mask_valid_config; [exact Ha|exact Hm|]. apply maskOf_valid; lia.
Qed.

Lemma C8_mask_invariant_witness :
  exists r',
    WithAlphabet customAlphabet (defaultReaderOn (newCustomRandReader 256)) =
      Returns (r', None) /\ mask_valid r' /\
    forall calls,
      alphabet (reads calls r') = customAlphabet /\
      mask (reads calls r') = mask r' /\ mask_valid (reads calls r').
Proof.
  apply (C8_mask_invariant customAlphabet). vm_compute. split; discriminate.
Defined.

(** C1, as stated, fails for an alphabet of one symbol: the mask stored is
    [1], not [2^ceil(log2 1) - 1 = 0], and the byte [1] is rejected. *)
Lemma C1_counterexample :
  exists r',
    WithAlphabet ["a"%byte] (defaultReaderOn (newCustomRandReader 256)) =
      Returns (r', None) /\
    mask r' = 1 /\ mask r' <> 2 ^ Z.log2_up (len (alphabet r')) - 1 /\
    accepted r' "001"%byte = false.
Proof.
  eexists. split; [reflexivity|]. vm_compute. repeat split; discriminate.
Qed.

(** C1, amended. For an alphabet of length [L] with [2 <= L <= 256] the
    mask stored by [WithAlphabet] is [2^ceil(log2 L) - 1], the smallest
    number of the form [2^k - 1] that is at least [L - 1]; for [L = 1] the
    mask is [1], the smallest such number with [k >= 1], so the masked
    value of a byte is its lowest bit and a byte whose masked value is 1 is
    rejected: the test of [Read] accepts exactly the even bytes. *)
Theorem C1_mask_value (a : list byte) (r : Reader) :
  1 <= len a <= 256 ->
  exists r',
    WithAlphabet a r = Returns (r', None) /\ alphabet r' = a /\
    (2 <= len a ->
       mask r' = 2 ^ Z.log2_up (len a) - 1 /\
       forall k, 0 <= k -> len a - 1 <= 2 ^ k - 1 -> mask r' <= 2 ^ k - 1) /\
    (len a = 1 ->
       mask r' = 1 /\ (forall k, 1 <= k -> mask r' <= 2 ^ k - 1) /\
       forall b,
         position r' b = Z.land (byte_val b) (mask r') /\
         (Z.land (byte_val b) (mask r') = 1 -> accepted r' b = false) /\
         (accepted r' b = true <-> Z.land (byte_val b) (mask r') = 0)).
Proof.
  intros H. eexists. split; [apply WithAlphabet_ok; exact H|].
  split; [reflexivity|]. cbn [mask]. split.
  - intros H2. rewrite maskOf_log2_up by exact H2. split; [reflexivity|].
    intros k Hk Hle.
    assert (Z.log2_up (len a) <= k) by (apply Z.log2_up_le_pow2; lia).
    assert (2 ^ Z.log2_up (len a) <= 2 ^ k) by (apply Z.pow_le_mono_r; lia).
    lia.
  - intros H1. unfold accepted, position. cbn [alphabet mask].
    rewrite H1, maskOf_1. change (to_byte 1) with 1.
    split; [reflexivity|]. split.
    + intros k Hk.
      assert (2 ^ 1 <= 2 ^ k) by (apply Z.pow_le_mono_r; lia).
      change (2 ^ 1) with 2 in *. lia.
    + intros b. split; [reflexivity|].
      assert (0 <= Z.land (byte_val b) 1)
        by (apply Z.land_nonneg; right; lia).
      split.
      * intros ->. reflexivity.
      * rewrite Z.ltb_lt. lia.
Qed.

Lemma C1_mask_value_witness :
  (exists r',
    WithAlphabet customAlphabet (defaultReaderOn (newCustomRandReader 256)) =
      Returns (r', None) /\ alphabet r' = customAlphabet /\
    (2 <= len customAlphabet ->
       mask r' = 2 ^ Z.log2_up (len customAlphabet) - 1 /\
       forall k, 0 <= k -> len customAlphabet - 1 <= 2 ^ k - 1 ->
                 mask r' <= 2 ^ k - 1) /\
    (len customAlphabet = 1 ->
       mask r' = 1 /\ (forall k, 1 <= k -> mask r' <= 2 ^ k - 1) /\
       forall b,
         position r' b = Z.land (byte_val b) (mask r') /\
         (Z.land (byte_val b) (mask r') = 1 -> accepted r' b = false) /\
         (accepted r' b = true <-> Z.land (byte_val b) (mask r') = 0))) /\
  (exists r',
    WithAlphabet ["a"%byte] (defaultReaderOn (newCustomRandReader 256)) =
      Returns (r', None) /\ alphabet r' = ["a"%byte] /\
    (2 <= len ["a"%byte] ->
       mask r' = 2 ^ Z.log2_up (len ["a"%byte]) - 1 /\
       forall k, 0 <= k -> len ["a"%byte] - 1 <= 2 ^ k - 1 ->
                 mask r' <= 2 ^ k - 1) /\
    (len ["a"%byte] = 1 ->
       mask r' = 1 /\ (forall k, 1 <= k -> mask r' <= 2 ^ k - 1) /\
       forall b,
         position r' b = Z.land (byte_val b) (mask r') /\
         (Z.land (byte_val b) (mask r') = 1 -> accepted r' b = false) /\
         (accepted r' b = true <-> Z.land (byte_val b) (mask r') = 0))).
Proof.
  split.
  - apply (C1_mask_value customAlphabet). vm_compute. split; discriminate.
  - apply (C1_mask_value ["a"%byte]). vm_compute. split; discriminate.
Defined.

(** ** float64: what the operations of [SpecFloat] compute *)

Lemma shr_1_nonneg (m : Z) (r s : bool) :
  0 <= m ->
  shr_1 {| shr_m := m; shr_r := r; shr_s := s |} =
  {| shr_m := m / 2; shr_r := Z.odd m; shr_s := r || s |}.
Proof.
  intros Hm. destruct m as [|p|p]; [reflexivity| |lia].
  destruct p; cbn [shr_1]; rewrite <- Z.div2_div; reflexivity.
Qed.

Lemma iter_pos_nat {A : Type} (f : A -> A) (p : positive) :
  forall x, SpecFloat.iter_pos f p x = Nat.iter (Pos.to_nat p) f x.
Proof.
  induction p as [p IH|p IH|]; intros x; cbn [SpecFloat.iter_pos].
  - rewrite !IH, Pos2Nat.inj_xI.
    replace (S (2 * Pos.to_nat p))
      with (Pos.to_nat p + (Pos.to_nat p + 1))%nat by lia.
    rewrite !Nat.iter_add. reflexivity.
  - rewrite !IH, Pos2Nat.inj_xO.
    replace (2 * Pos.to_nat p)%nat with (Pos.to_nat p + Pos.to_nat p)%nat by lia.
    rewrite Nat.iter_add. reflexivity.
  - reflexivity.
Qed.

Lemma mod_double (N D : Z) :
  0 < D -> N mod (2 * D) = N mod D + D * ((N / D) mod 2).
Proof.
  intros HD. rewrite (Z.mul_comm 2 D). apply Z.rem_mul_r; lia.
Qed.

Lemma shr_1_located (N D : Z) :
  0 <= N -> 0 < D -> shr_1 (located N D) = located N (2 * D).
Proof.
  intros HN HD. unfold located.
  rewrite shr_1_nonneg by (apply Z.div_pos; lia).
  pose proof (Z.mod_pos_bound N D HD) as Hrem.
  unfold round_bit, sticky_bit. rewrite (mod_double N D HD).
  rewrite (Zmod_odd (N / D)).
  rewrite Z.div_div by lia. rewrite (Z.mul_comm D 2).
  f_equal.
  - destruct (Z.odd (N / D)).
    + symmetry. apply Z.leb_le. lia.
    + symmetry. apply Z.leb_gt. lia.
  - destruct (Z.odd (N / D));
      repeat match goal with
             | |- context [?a <=? ?b] => destruct (Z.leb_spec a b)
             | |- context [?a =? ?b] => destruct (Z.eqb_spec a b)
             end; simpl; try reflexivity; lia.
Qed.

Lemma iter_shr_1_located (N D : Z) (n : nat) :
  0 <= N -> 0 < D ->
  Nat.iter n shr_1 (located N D) = located N (D * 2 ^ Z.of_nat n).
Proof.
  intros HN HD. induction n as [|n IH].
  - simpl. rewrite Z.mul_1_r. reflexivity.
  - rewrite Nat.iter_succ, IH, shr_1_located by lia.
    rewrite Nat2Z.inj_succ, Z.pow_succ_r by lia. f_equal. lia.
Qed.

Lemma shr_located (N D e n : Z) :
  0 <= N -> 0 < D -> 0 <= n ->
  shr (located N D) e n = (located N (D * 2 ^ n), e + n).
Proof.
  intros HN HD Hn. destruct n as [|p|p]; [| |lia].
  - simpl. rewrite Z.mul_1_r, Z.add_0_r. reflexivity.
  - cbn [shr]. rewrite iter_pos_nat, iter_shr_1_located by lia.
    rewrite positive_nat_Z. reflexivity.
Qed.

Lemma round_located (N D : Z) :
  round_nearest_even (N / D) (loc_of_shr_record (located N D)) = rne N D.
Proof.
  unfold rne, located, loc_of_shr_record.
  rewrite <- Z.negb_even.
  destruct (round_bit N D), (sticky_bit N D); cbn [round_nearest_even andb orb];
    try reflexivity.
  destruct (Z.even (N / D)); reflexivity.
Qed.

Lemma shr_record_of_loc_located (N D : Z) :
  shr_record_of_loc (N / D) (loc_of_shr_record (located N D)) = located N D.
Proof.
  unfold located, loc_of_shr_record.
  destruct (round_bit N D), (sticky_bit N D); reflexivity.
Qed.

Lemma located_exact (M : Z) :
  shr_record_of_loc M loc_Exact = located M 1.
Proof.
  unfold located, round_bit, sticky_bit. rewrite Z.div_1_r, Z.mod_1_r.
  reflexivity.
Qed.

Lemma digits2_pos_size (p : positive) : digits2_pos p = Pos.size p.
Proof. induction p; simpl; congruence. Qed.

Lemma Zdigits2_log2 (m : Z) : 0 < m -> Zdigits2 m = Z.log2 m + 1.
Proof.
  intros Hm. destruct m as [|p|p]; try lia. cbn [Zdigits2].
  rewrite digits2_pos_size. destruct p; simpl; lia.
Qed.

Lemma rne_cases (N D : Z) : rne N D = N / D \/ rne N D = N / D + 1.
Proof. unfold rne. destruct (_ && _); auto. Qed.

Lemma div_pos_inv (N D : Z) : 0 < D -> 0 < N / D -> 0 < N.
Proof.
  intros HD H. destruct (Z.le_gt_cases N 0) as [Hle|]; [|assumption].
  assert (N / D <= 0 / D) by (apply Z.div_le_mono; lia).
  rewrite Z.div_0_l in * by lia. lia.
Qed.

Lemma scaled_mantissa_range (N D : Z) :
  0 < D -> 2 ^ 52 <= N / D ->
  0 <= Z.log2 (N / D) - 52 /\
  2 ^ 52 <= N / (D * 2 ^ (Z.log2 (N / D) - 52)) < 2 ^ 53.
Proof.
  intros HD Hq.
  assert (H52 : 52 <= Z.log2 (N / D)) by (apply Z.log2_le_pow2; lia).
  pose proof (Z.log2_spec (N / D) ltac:(lia)) as [Hlo Hhi].
  set (n := Z.log2 (N / D) - 52) in *.
  replace (Z.log2 (N / D)) with (n + 52) in Hlo, Hhi by lia.
  replace (Z.succ (n + 52)) with (n + 53) in Hhi by lia.
  rewrite Z.pow_add_r in Hlo, Hhi by lia.
  assert (0 < 2 ^ n) by (apply Z.pow_pos_nonneg; lia).
  split; [lia|]. rewrite <- Z.div_div by lia. split.
  - apply Z.div_le_lower_bound; lia.
  - apply Z.div_lt_upper_bound; lia.
Qed.

(** [binary_round_aux] at binary64 on a positive number given by its
    integer part and the location of the rest. *)
Lemma binary_round_aux_located (N D e : Z) :
  0 < D -> 2 ^ 52 <= N / D ->
  - 1074 <= e + (Z.log2 (N / D) - 52) ->
  e + (Z.log2 (N / D) - 52) + 1 <= 971 ->
  binary_round_aux 53 1024 false (N / D) e (loc_of_shr_record (located N D)) =
  S754_finite false (Z.to_pos (fst (round53 N D e))) (snd (round53 N D e)).
Proof.
  intros HD Hq Hlo Hhi.
  pose proof (div_pos_inv N D HD ltac:(lia)) as HN.
  destruct (scaled_mantissa_range N D HD Hq) as [Hn Hm].
  unfold round53, binary_round_aux, shr_fexp.
  set (n := Z.log2 (N / D) - 52) in *.
  rewrite shr_record_of_loc_located, Zdigits2_log2 by lia.
  unfold fexp, emin.
  replace (Z.max (Z.log2 (N / D) + 1 + e - 53) (3 - 1024 - 53) - e) with n by lia.
  rewrite shr_located by lia.
  assert (HD' : 0 < D * 2 ^ n) by (apply Z.mul_pos_pos; [|apply Z.pow_pos_nonneg]; lia).
  set (D' := D * 2 ^ n) in *.
  change (shr_m (located N D')) with (N / D').
  rewrite round_located.
  set (M := rne N D').
  assert (HM : 2 ^ 52 <= M <= 2 ^ 53) by (destruct (rne_cases N D'); subst M; lia).
  rewrite located_exact, Zdigits2_log2 by lia.
  destruct (Z.ltb_spec M (2 ^ 53)) as [Hlt|Hge].
  - rewrite (Z.log2_unique M 52) by lia.
    replace (Z.max (52 + 1 + (e + n) - 53) (3 - 1024 - 53) - (e + n)) with 0 by lia.
    rewrite shr_located by lia.
    unfold located. cbn [shr_m fst snd]. rewrite Z.mul_1_l, Z.pow_0_r, Z.div_1_r.
    destruct M as [|m|m]; try lia.
    replace (e + n + 0 <=? 1024 - 53) with true by (symmetry; apply Z.leb_le; lia).
    rewrite Z.add_0_r. reflexivity.
  - assert (M = 2 ^ 53) as -> by lia.
    change (Z.log2 (2 ^ 53)) with 53.
    replace (Z.max (53 + 1 + (e + n) - 53) (3 - 1024 - 53) - (e + n)) with 1 by lia.
    rewrite shr_located by lia.
    unfold located. cbn [shr_m fst snd].
    change (2 ^ 53 / (1 * 2 ^ 1)) with (2 ^ 52).
    change (2 ^ 52) with (Z.pos (Z.to_pos (2 ^ 52))) at 1. cbv iota.
    replace (e + n + 1 <=? 1024 - 53) with true by (symmetry; apply Z.leb_le; lia).
    reflexivity.
Qed.

Lemma rne_exact (A D rho : Z) :
  0 < D -> 0 <= rho -> 2 * rho < D -> rne (A * D + rho) D = A.
Proof.
  intros HD Hr Hlt. unfold rne, round_bit.
  assert (Hmod : (A * D + rho) mod D = rho).
  { rewrite Z.add_comm, Z.mod_add by lia. apply Z.mod_small. lia. }
  assert (Hdiv : (A * D + rho) / D = A).
  { rewrite Z.add_comm, Z.div_add by lia. rewrite Z.div_small by lia. lia. }
  rewrite Hmod, Hdiv.
  replace (D <=? 2 * rho) with false by (symmetry; apply Z.leb_gt; lia).
  reflexivity.
Qed.

Lemma rne_error (N D : Z) : 0 < D -> 2 * Z.abs (rne N D * D - N) <= D.
Proof.
  intros HD. pose proof (Z.div_mod N D ltac:(lia)) as Hdm.
  pose proof (Z.mod_pos_bound N D HD) as Hrem.
  unfold rne, round_bit, sticky_bit.
  destruct (Z.leb_spec D (2 * (N mod D))) as [Hr|Hr]; cbn [andb].
  - destruct (Z.eqb_spec (N mod D) 0) as [H0|H0]; [lia|].
    destruct (Z.eqb_spec (2 * (N mod D)) D) as [Hh|Hh]; cbn [negb andb orb].
    + destruct (Z.odd (N / D)); lia.
    + lia.
  - lia.
Qed.

Lemma round53_exact (A D rho n e : Z) :
  0 <= n -> 0 < D -> 2 ^ 52 <= A < 2 ^ 53 -> 0 <= rho -> 2 * rho < D * 2 ^ n ->
  round53 (A * (D * 2 ^ n) + rho) D e = (A, e + n).
Proof.
  intros Hn HD HA Hr Hlt.
  assert (HP : 0 < 2 ^ n) by (apply Z.pow_pos_nonneg; lia).
  set (N := A * (D * 2 ^ n) + rho).
  assert (Hq : A * 2 ^ n <= N / D < A * 2 ^ n + 2 ^ n).
  { split.
    - apply Z.div_le_lower_bound; [lia|]. subst N. nia.
    - apply Z.div_lt_upper_bound; [lia|]. subst N. nia. }
  assert (Hlog : Z.log2 (N / D) = 52 + n).
  { apply Z.log2_unique; [lia|].
    replace (Z.succ (52 + n)) with (53 + n) by lia.
    rewrite !Z.pow_add_r by lia. nia. }
  unfold round53. rewrite Hlog. replace (52 + n - 52) with n by lia.
  subst N. rewrite rne_exact by nia.
  replace (A <? 2 ^ 53) with true by (symmetry; apply Z.ltb_lt; lia).
  reflexivity.
Qed.

(** The value [M * 2^(E - e)] that [round53] keeps, and the sizes. *)
Lemma round53_spec (N D e : Z) :
  0 < D -> 2 ^ 52 <= N / D ->
  let n := Z.log2 (N / D) - 52 in
  let M := fst (round53 N D e) in
  let E := snd (round53 N D e) in
  2 ^ 52 <= M < 2 ^ 53 /\ (E = e + n \/ E = e + n + 1) /\
  M * 2 ^ (E - e) = rne N (D * 2 ^ n) * 2 ^ n.
Proof.
  intros HD Hq n M E.
  destruct (scaled_mantissa_range N D HD Hq) as [Hn Hm]. fold n in Hn, Hm.
  subst M E. unfold round53. fold n.
  destruct (rne_cases N (D * 2 ^ n)) as [Hc|Hc].
  - rewrite Hc.
    replace (N / (D * 2 ^ n) <? 2 ^ 53) with true by (symmetry; apply Z.ltb_lt; lia).
    cbn [fst snd]. replace (e + n - e) with n by lia. lia.
  - destruct (Z.ltb_spec (rne N (D * 2 ^ n)) (2 ^ 53)) as [Hlt|Hge]; cbn [fst snd].
    + replace (e + n - e) with n by lia. lia.
    + assert (Heq : rne N (D * 2 ^ n) = 2 ^ 53) by lia. rewrite Heq.
      replace (e + n + 1 - e) with (n + 1) by lia.
      rewrite Z.pow_add_r by lia. change (2 ^ 1) with 2. lia.
Qed.

Lemma binary_round_aux_exact (N e : Z) :
  2 ^ 52 <= N ->
  - 1074 <= e + (Z.log2 N - 52) -> e + (Z.log2 N - 52) + 1 <= 971 ->
  binary_round_aux 53 1024 false N e loc_Exact =
  S754_finite false (Z.to_pos (fst (round53 N 1 e))) (snd (round53 N 1 e)).
Proof.
  intros HN Hlo Hhi.
  rewrite <- (binary_round_aux_located N 1 e); rewrite ?Z.div_1_r; try lia.
  f_equal. unfold located, round_bit, sticky_bit. rewrite Z.mod_1_r. reflexivity.
Qed.

Lemma pos_iter_xO (p d : positive) :
  Z.pos (Pos.iter xO p d) = Z.pos p * 2 ^ Z.pos d.
Proof.
  revert p. induction d as [|d IH] using Pos.peano_ind; intros p.
  - simpl. lia.
  - rewrite Pos.iter_succ, Pos2Z.inj_xO, IH, Pos2Z.inj_succ.
    rewrite Z.pow_succ_r by lia. lia.
Qed.

(** [float64(k)] for an [int] that fits the mantissa: exact. *)
Lemma float64_of_int_small (k : Z) :
  0 < k < 2 ^ 53 ->
  float64_of_int k =
  S754_finite false (Z.to_pos (k * 2 ^ (52 - Z.log2 k))) (Z.log2 k - 52).
Proof.
  intros Hk.
  assert (Hl : 0 <= Z.log2 k < 53).
  { split; [apply Z.log2_nonneg|]. apply Z.log2_lt_pow2; lia. }
  pose proof (Z.log2_spec k ltac:(lia)) as [Hlo Hhi].
  destruct k as [|p|p]; try lia.
  unfold float64_of_int, binary_normalize, binary_round.
  change (Z.pos (digits2_pos p)) with (Zdigits2 (Z.pos p)).
  rewrite Zdigits2_log2 by lia. unfold fexp, emin.
  set (l := Z.log2 (Z.pos p)) in *.
  replace (Z.max (l + 1 + 0 - 53) (3 - 1024 - 53)) with (l - 52) by lia.
  assert (Hm : 2 ^ 52 <= Z.pos p * 2 ^ (52 - l) < 2 ^ 53).
  { assert (E52 : 2 ^ 52 = 2 ^ l * 2 ^ (52 - l))
      by (rewrite <- Z.pow_add_r by lia; f_equal; lia).
    assert (E53 : 2 ^ 53 = 2 ^ Z.succ l * 2 ^ (52 - l))
      by (rewrite <- Z.pow_add_r by lia; f_equal; lia).
    rewrite E52, E53.
    assert (0 < 2 ^ (52 - l)) by (apply Z.pow_pos_nonneg; lia). nia. }
  assert (Hal : shl_align p 0 (l - 52) =
                (Z.to_pos (Z.pos p * 2 ^ (52 - l)), l - 52)).
  { unfold shl_align. destruct (l - 52 - 0) as [|d|d] eqn:Ed; try lia.
    - replace (52 - l) with 0 by lia. replace (l - 52) with 0 by lia.
      rewrite Z.mul_1_r. reflexivity.
    - f_equal. apply Pos2Z.inj. rewrite pos_iter_xO, Z2Pos.id by lia.
      f_equal. f_equal. lia. }
  rewrite Hal. rewrite Z2Pos.id by lia.
  set (N := Z.pos p * 2 ^ (52 - l)) in *.
  assert (HlN : Z.log2 N = 52) by (apply Z.log2_unique; lia).
  rewrite binary_round_aux_exact by lia.
  assert (Hr : round53 N 1 (l - 52) = (N, l - 52 + 0)).
  { pose proof (round53_exact N 1 0 0 (l - 52)) as H.
    replace (N * (1 * 2 ^ 0) + 0) with N in H by lia. apply H; lia. }
  rewrite Hr. cbn [fst snd]. f_equal. lia.
Qed.

Lemma float64_mul_finite (m1 m2 : positive) (e1 e2 : Z) :
  Z.log2 (Z.pos m1) = 52 -> Z.log2 (Z.pos m2) = 52 ->
  - 1000 <= e1 + e2 <= 900 ->
  float64_mul (S754_finite false m1 e1) (S754_finite false m2 e2) =
  S754_finite false
    (Z.to_pos (fst (round53 (Z.pos m1 * Z.pos m2) 1 (e1 + e2))))
    (snd (round53 (Z.pos m1 * Z.pos m2) 1 (e1 + e2))).
Proof.
  intros H1 H2 He.
  pose proof (Z.log2_spec (Z.pos m1) ltac:(lia)) as B1.
  pose proof (Z.log2_spec (Z.pos m2) ltac:(lia)) as B2.
  rewrite H1 in B1. rewrite H2 in B2.
  change (Z.succ 52) with 53 in *.
  assert (HN : 2 ^ 104 <= Z.pos m1 * Z.pos m2 < 2 ^ 106).
  { change (2 ^ 104) with (2 ^ 52 * 2 ^ 52).
    change (2 ^ 106) with (2 ^ 53 * 2 ^ 53). nia. }
  assert (Hl : 104 <= Z.log2 (Z.pos m1 * Z.pos m2) < 106).
  { split; [apply Z.log2_le_pow2; lia|apply Z.log2_lt_pow2; lia]. }
  unfold float64_mul, SFmul. cbn [xorb].
  rewrite Pos2Z.inj_mul.
  apply binary_round_aux_exact; lia.
Qed.

Lemma new_location_located (N D : Z) :
  0 < D -> new_location D (N mod D) = loc_of_shr_record (located N D).
Proof.
  intros HD. pose proof (Z.mod_pos_bound N D HD) as Hrem.
  unfold located, loc_of_shr_record, round_bit, sticky_bit.
  unfold new_location, new_location_even, new_location_odd.
  set (rho := N mod D) in *.
  destruct (Z.even D) eqn:Hev.
  - destruct (Z.eqb_spec rho 0) as [H0|H0]; cbn [negb andb].
    + replace (D <=? 2 * rho) with false by (symmetry; apply Z.leb_gt; lia).
      reflexivity.
    + destruct (Z.compare_spec (2 * rho) D) as [Hc|Hc|Hc].
      * replace (D <=? 2 * rho) with true by (symmetry; apply Z.leb_le; lia).
        replace (2 * rho =? D) with true by (symmetry; apply Z.eqb_eq; lia).
        reflexivity.
      * replace (D <=? 2 * rho) with false by (symmetry; apply Z.leb_gt; lia).
        replace (2 * rho =? D) with false by (symmetry; apply Z.eqb_neq; lia).
        reflexivity.
      * replace (D <=? 2 * rho) with true by (symmetry; apply Z.leb_le; lia).
        replace (2 * rho =? D) with false by (symmetry; apply Z.eqb_neq; lia).
        reflexivity.
  - assert (Hodd : Z.odd D = true) by (rewrite <- Z.negb_even, Hev; reflexivity).
    apply Z.odd_spec in Hodd as [t Ht].
    destruct (Z.eqb_spec rho 0) as [H0|H0]; cbn [negb andb].
    + replace (D <=? 2 * rho) with false by (symmetry; apply Z.leb_gt; lia).
      reflexivity.
    + replace (2 * rho =? D) with false by (symmetry; apply Z.eqb_neq; lia).
      destruct (Z.compare_spec (2 * rho + 1) D) as [Hc|Hc|Hc].
      * replace (D <=? 2 * rho) with false by (symmetry; apply Z.leb_gt; lia).
        reflexivity.
      * replace (D <=? 2 * rho) with false by (symmetry; apply Z.leb_gt; lia).
        reflexivity.
      * replace (D <=? 2 * rho) with true by (symmetry; apply Z.leb_le; lia).
        reflexivity.
Qed.

Lemma float64_div_finite (m1 m2 : positive) (e1 e2 : Z) :
  Z.log2 (Z.pos m1) = 52 -> Z.log2 (Z.pos m2) = 52 ->
  - 1000 <= e1 - e2 <= 900 ->
  float64_div (S754_finite false m1 e1) (S754_finite false m2 e2) =
  S754_finite false
    (Z.to_pos (fst (round53 (Z.pos m1 * 2 ^ 53) (Z.pos m2) (e1 - e2 - 53))))
    (snd (round53 (Z.pos m1 * 2 ^ 53) (Z.pos m2) (e1 - e2 - 53))).
Proof.
  intros H1 H2 He.
  pose proof (Z.log2_spec (Z.pos m1) ltac:(lia)) as B1.
  pose proof (Z.log2_spec (Z.pos m2) ltac:(lia)) as B2.
  rewrite H1 in B1. rewrite H2 in B2.
  change (Z.succ 52) with 53 in *.
  set (N := Z.pos m1 * 2 ^ 53). set (D := Z.pos m2).
  assert (Hq : 2 ^ 52 <= N / D < 2 ^ 54).
  { split.
    - apply Z.div_le_lower_bound; [lia|]. subst N D.
      change (2 ^ 53) with (2 * 2 ^ 52) in *. nia.
    - apply Z.div_lt_upper_bound; [lia|]. subst N D.
      change (2 ^ 54) with (4 * 2 ^ 52). change (2 ^ 53) with (2 * 2 ^ 52) in *.
      nia. }
  assert (Hl : 52 <= Z.log2 (N / D) < 54).
  { split; [apply Z.log2_le_pow2; lia|apply Z.log2_lt_pow2; lia]. }
  unfold float64_div, SFdiv, SFdiv_core_binary. cbn [xorb].
  rewrite !Zdigits2_log2, H1, H2 by lia. unfold fexp, emin.
  replace (Z.min (Z.max (52 + 1 + e1 - (52 + 1 + e2) - 53) (3 - 1024 - 53))
             (e1 - e2)) with (e1 - e2 - 53) by lia.
  replace (e1 - e2 - (e1 - e2 - 53)) with 53 by lia.
  rewrite Z.shiftl_mul_pow2 by lia. fold N. fold D.
  pose proof (new_location_located N D ltac:(subst D; lia)) as Hloc.
  unfold Z.modulo in Hloc.
  pose proof (binary_round_aux_located N D (e1 - e2 - 53)
                ltac:(subst D; lia) ltac:(lia) ltac:(lia) ltac:(lia)) as Hb.
  unfold Z.div in Hb at 1.
  destruct (Z.div_eucl N D) as [q r]. rewrite Hloc. exact Hb.
Qed.

Lemma ceil_div_unique (a b c : Z) :
  0 < b -> (c - 1) * b < a <= c * b -> ceil_div a b = c.
Proof.
  intros Hb H. unfold ceil_div.
  assert ((- a) / b = - c); [|lia].
  symmetry. apply (Z.div_unique (- a) b (- c) (c * b - a)); lia.
Qed.

Lemma ceil_div_spec (a b : Z) :
  0 < b -> (ceil_div a b - 1) * b < a <= ceil_div a b * b.
Proof.
  intros Hb. unfold ceil_div.
  pose proof (Z.div_mod (- a) b ltac:(lia)).
  pose proof (Z.mod_pos_bound (- a) b Hb). nia.
Qed.

Lemma pow2_split (x y : Z) : 0 <= x -> 0 <= y -> 2 ^ (x + y) = 2 ^ x * 2 ^ y.
Proof. intros. apply Z.pow_add_r; lia. Qed.

Lemma pow2_pos (x : Z) : 0 <= x -> 0 < 2 ^ x.
Proof. intros. apply Z.pow_pos_nonneg; lia. Qed.

Lemma int_of_float64_of_int (C : Z) :
  0 < C < 2 ^ 53 -> int_of_float64 (float64_of_int C) = C.
Proof.
  intros HC. rewrite float64_of_int_small by exact HC.
  assert (Hl : 0 <= Z.log2 C < 53).
  { split; [apply Z.log2_nonneg|apply Z.log2_lt_pow2; lia]. }
  pose proof (pow2_pos (52 - Z.log2 C) ltac:(lia)) as HP.
  unfold int_of_float64. cbn [cond_Zopp].
  rewrite Z2Pos.id by nia.
  destruct (Z.leb_spec 0 (Z.log2 C - 52)) as [Hge|Hlt].
  - replace (Z.log2 C - 52) with 0 by lia. replace (52 - Z.log2 C) with 0 by lia.
    rewrite Z.pow_0_r, !Z.mul_1_r.
    replace ((- 2 ^ 63 <=? C) && (C <? 2 ^ 63)) with true; [reflexivity|].
    symmetry. apply andb_true_intro. split; [apply Z.leb_le|apply Z.ltb_lt]; lia.
  - replace (- (Z.log2 C - 52)) with (52 - Z.log2 C) by lia.
    rewrite Z.quot_mul by lia.
    replace ((- 2 ^ 63 <=? C) && (C <? 2 ^ 63)) with true; [reflexivity|].
    symmetry. apply andb_true_intro. split; [apply Z.leb_le|apply Z.ltb_lt]; lia.
Qed.

(** [int(math.Ceil(x))] for a positive [x] with a fractional part. *)
Lemma ceil_int (M E C : Z) :
  0 < M -> E < 0 -> 0 < C < 2 ^ 53 ->
  (C - 1) * 2 ^ (- E) < M <= C * 2 ^ (- E) ->
  int_of_float64 (math_Ceil (S754_finite false (Z.to_pos M) E)) = C.
Proof.
  intros HM HE HC Hb. unfold math_Ceil.
  replace (0 <=? E) with false by (symmetry; apply Z.leb_gt; lia).
  cbn [cond_Zopp]. rewrite Z2Pos.id by lia.
  fold (ceil_div M (2 ^ (- E))).
  rewrite (ceil_div_unique M (2 ^ (- E)) C) by (try apply pow2_pos; lia).
  apply int_of_float64_of_int. exact HC.
Qed.

Lemma log2_small (k : Z) : 0 < k < 2 ^ 53 -> 0 <= Z.log2 k <= 52.
Proof.
  intros Hk. split; [apply Z.log2_nonneg|].
  assert (Z.log2 k < 53) by (apply Z.log2_lt_pow2; lia). lia.
Qed.

Lemma mant_range (k : Z) : 0 < k < 2 ^ 53 -> 2 ^ 52 <= mant k < 2 ^ 53.
Proof.
  intros Hk. pose proof (log2_small k Hk) as Hl.
  pose proof (Z.log2_spec k ltac:(lia)) as [Hlo Hhi]. unfold mant.
  assert (E52 : 2 ^ 52 = 2 ^ Z.log2 k * 2 ^ (52 - Z.log2 k))
    by (rewrite <- pow2_split by lia; f_equal; lia).
  assert (E53 : 2 ^ 53 = 2 ^ Z.succ (Z.log2 k) * 2 ^ (52 - Z.log2 k))
    by (rewrite <- pow2_split by lia; f_equal; lia).
  rewrite E52, E53. pose proof (pow2_pos (52 - Z.log2 k) ltac:(lia)). nia.
Qed.

Lemma mant_log2 (k : Z) : 0 < k < 2 ^ 53 -> Z.log2 (mant k) = 52.
Proof.
  intros Hk. pose proof (mant_range k Hk). apply Z.log2_unique; lia.
Qed.

Lemma float64_of_int_mant (k : Z) :
  0 < k < 2 ^ 53 ->
  float64_of_int k = S754_finite false (Z.to_pos (mant k)) (Z.log2 k - 52).
Proof. apply float64_of_int_small. Qed.

Lemma round53_error (N D e : Z) :
  0 < D -> 2 ^ 52 <= N / D ->
  exists M u,
    round53 N D e = (M, e + u) /\ 2 ^ 52 <= M < 2 ^ 53 /\
    Z.log2 (N / D) - 52 <= u <= Z.log2 (N / D) - 52 + 1 /\
    2 * 2 ^ 52 * Z.abs (M * 2 ^ u * D - N) <= N.
Proof.
  intros HD Hq.
  destruct (round53_spec N D e HD Hq) as (HM & HE & Hval).
  destruct (scaled_mantissa_range N D HD Hq) as [Hn _].
  set (n := Z.log2 (N / D) - 52) in *.
  exists (fst (round53 N D e)), (snd (round53 N D e) - e).
  split; [rewrite (surjective_pairing (round53 N D e)) at 1; f_equal; lia|].
  split; [exact HM|]. split; [lia|].
  rewrite Hval.
  pose proof (pow2_pos n Hn) as HP.
  pose proof (rne_error N (D * 2 ^ n) ltac:(nia)) as Herr.
  assert (Hbig : D * 2 ^ n * 2 ^ 52 <= N).
  { pose proof (Z.log2_spec (N / D) ltac:(lia)) as [Hlo _].
    replace (Z.log2 (N / D)) with (52 + n) in Hlo by lia.
    rewrite pow2_split in Hlo by lia.
    pose proof (Z.mul_div_le N D HD). nia. }
  replace (rne N (D * 2 ^ n) * 2 ^ n * D - N)
    with (rne N (D * 2 ^ n) * (D * 2 ^ n) - N) by lia.
  nia.
Qed.

(** [1.6 * float64(k)]: the result and its distance from the product of
    the mantissas. *)
Lemma float64_mul_1_6 (k : Z) :
  0 < k < 2 ^ 53 ->
  exists M u,
    float64_mul float64_1_6 (float64_of_int k) =
      S754_finite false (Z.to_pos M) (Z.log2 k - 104 + u) /\
    2 ^ 52 <= M < 2 ^ 53 /\ 52 <= u <= 54 /\
    2 * 2 ^ 52 * Z.abs (M * 2 ^ u - 7205759403792794 * mant k)
      <= 7205759403792794 * mant k.
Proof.
  intros Hk. pose proof (mant_range k Hk) as Hm. pose proof (log2_small k Hk).
  rewrite float64_of_int_mant by exact Hk. unfold float64_1_6.
  rewrite float64_mul_finite;
    [|reflexivity|rewrite Z2Pos.id by lia; apply mant_log2; exact Hk|lia].
  rewrite Z2Pos.id by lia.
  set (N := 7205759403792794 * mant k).
  assert (HN : 2 ^ 104 <= N < 2 ^ 106).
  { subst N. change (2 ^ 104) with (2 ^ 52 * 2 ^ 52).
    change (2 ^ 106) with (2 ^ 53 * 2 ^ 53). lia. }
  assert (Hl : 104 <= Z.log2 N < 106).
  { split; [apply Z.log2_le_pow2; lia|apply Z.log2_lt_pow2; lia]. }
  destruct (round53_error N 1 (-52 + (Z.log2 k - 52)) ltac:(lia)
              ltac:(rewrite Z.div_1_r; lia)) as (M & u & Hr & HM & Hu & Herr).
  rewrite Z.div_1_r in Hu. rewrite Z.mul_1_r in Herr.
  exists M, u. rewrite Hr. cbn [fst snd].
  split; [f_equal; lia|]. split; [exact HM|]. split; [lia|exact Herr].
Qed.

(** [x / float64(L)] for a positive normal [x]. *)
Lemma float64_div_int (M1 E1 L : Z) :
  2 ^ 52 <= M1 < 2 ^ 53 -> - 900 <= E1 <= 800 -> 0 < L < 2 ^ 53 ->
  exists M u,
    float64_div (S754_finite false (Z.to_pos M1) E1) (float64_of_int L) =
      S754_finite false (Z.to_pos M) (E1 - Z.log2 L - 1 + u) /\
    2 ^ 52 <= M < 2 ^ 53 /\ 0 <= u <= 2 /\
    2 * 2 ^ 52 * Z.abs (M * 2 ^ u * mant L - M1 * 2 ^ 53) <= M1 * 2 ^ 53.
Proof.
  intros HM1 HE1 HL. pose proof (mant_range L HL) as Hm.
  pose proof (log2_small L HL).
  rewrite (float64_of_int_mant L) by exact HL.
  rewrite float64_div_finite;
    [|rewrite Z2Pos.id by lia; apply Z.log2_unique; lia
     |rewrite Z2Pos.id by lia; apply mant_log2; exact HL|lia].
  rewrite !Z2Pos.id by lia.
  set (N := M1 * 2 ^ 53).
  assert (Hq : 2 ^ 52 <= N / mant L < 2 ^ 54).
  { split.
    - apply Z.div_le_lower_bound; [lia|]. subst N.
      change (2 ^ 53) with (2 * 2 ^ 52) in *. nia.
    - apply Z.div_lt_upper_bound; [lia|]. subst N.
      change (2 ^ 54) with (4 * 2 ^ 52). change (2 ^ 53) with (2 * 2 ^ 52) in *.
      nia. }
  assert (Hl : 52 <= Z.log2 (N / mant L) < 54).
  { split; [apply Z.log2_le_pow2; lia|apply Z.log2_lt_pow2; lia]. }
  destruct (round53_error N (mant L) (E1 - (Z.log2 L - 52) - 53) ltac:(lia)
              ltac:(lia)) as (M & u & Hr & HM & Hu & Herr).
  exists M, u. rewrite Hr. cbn [fst snd].
  split; [f_equal; lia|]. split; [exact HM|]. split; [lia|exact Herr].
Qed.

(** [1.6 * float64(5 j)] is exactly [float64(8 j)]. *)
Lemma float64_mul_1_6_exact (j : Z) :
  0 < j -> 8 * j < 2 ^ 53 ->
  float64_mul float64_1_6 (float64_of_int (5 * j)) = float64_of_int (8 * j).
Proof.
  intros Hj H8.
  assert (H5 : 0 < 5 * j < 2 ^ 53) by lia.
  assert (H8' : 0 < 8 * j < 2 ^ 53) by lia.
  pose proof (log2_small _ H5) as Ha5. pose proof (log2_small _ H8') as Ha8.
  pose proof (mant_range _ H5) as Hm5. pose proof (mant_range _ H8') as Hm8.
  assert (Hle : Z.log2 (5 * j) <= Z.log2 (8 * j)) by (apply Z.log2_le_mono; lia).
  pose proof (Z.log2_spec (8 * j) ltac:(lia)) as [Hlo8 Hhi8].
  rewrite (float64_of_int_mant (5 * j)), (float64_of_int_mant (8 * j)) by lia.
  unfold float64_1_6.
  rewrite float64_mul_finite;
    [|reflexivity|rewrite Z2Pos.id by lia; apply mant_log2; lia|lia].
  rewrite Z2Pos.id by lia.
  set (a5 := Z.log2 (5 * j)) in *. set (a8 := Z.log2 (8 * j)) in *.
  pose proof (pow2_pos (52 - a5) ltac:(lia)) as Hp5.
  pose proof (pow2_pos (52 - a8) ltac:(lia)) as Hp8.
  pose proof (pow2_pos a8 ltac:(lia)) as Hq8.
  assert (Hsplit : 2 ^ (52 - a5 + a8) = 2 ^ (52 - a5) * 2 ^ a8)
    by (apply pow2_split; lia).
  assert (H52 : 2 ^ (52 - a8) * 2 ^ a8 = 2 ^ 52)
    by (rewrite <- pow2_split by lia; f_equal; lia).
  assert (Hsucc : 2 ^ Z.succ a8 = 2 * 2 ^ a8) by (apply Z.pow_succ_r; lia).
  assert (HN : 7205759403792794 * mant (5 * j) =
               mant (8 * j) * (1 * 2 ^ (52 - a5 + a8)) + 2 * j * 2 ^ (52 - a5)).
  { unfold mant. fold a5 a8. rewrite Hsplit.
    replace (8 * j * 2 ^ (52 - a8) * (1 * (2 ^ (52 - a5) * 2 ^ a8)))
      with (8 * j * 2 ^ (52 - a5) * (2 ^ (52 - a8) * 2 ^ a8)) by ring.
    rewrite H52. change (2 ^ 52) with 4503599627370496. ring. }
  rewrite HN, round53_exact; [| lia | lia | exact Hm8 | nia | ].
  - cbn [fst snd]. f_equal. lia.
  - rewrite Hsplit. nia.
Qed.

(** [float64(q L) / float64(L)] is exactly [float64(q)]. *)
Lemma float64_div_exact (q L : Z) :
  0 < q -> 0 < L -> q * L < 2 ^ 53 ->
  float64_div (float64_of_int (q * L)) (float64_of_int L) = float64_of_int q.
Proof.
  intros Hq HL Hlt.
  assert (HqL : 0 < q * L < 2 ^ 53) by nia.
  assert (Hq' : 0 < q < 2 ^ 53) by nia.
  assert (HL' : 0 < L < 2 ^ 53) by nia.
  pose proof (log2_small _ HqL) as Ha. pose proof (log2_small _ Hq') as Haq.
  pose proof (log2_small _ HL') as Hb.
  pose proof (mant_range _ HqL) as Hm. pose proof (mant_range _ Hq') as Hmq.
  pose proof (mant_range _ HL') as HmL.
  pose proof (Z.log2_spec q ltac:(lia)) as [_ Hhq].
  pose proof (Z.log2_spec L ltac:(lia)) as [_ HhL].
  assert (Hn : Z.log2 (q * L) <= Z.log2 q + Z.log2 L + 1).
  { assert (Z.log2 (q * L) < Z.log2 q + Z.log2 L + 2); [|lia].
    apply Z.log2_lt_pow2; [lia|].
    replace (Z.log2 q + Z.log2 L + 2) with (Z.succ (Z.log2 q) + Z.succ (Z.log2 L))
      by lia.
    rewrite pow2_split by lia. nia. }
  rewrite (float64_of_int_mant (q * L)), (float64_of_int_mant L),
    (float64_of_int_mant q) by lia.
  rewrite float64_div_finite;
    [|rewrite Z2Pos.id by lia; apply mant_log2; lia
     |rewrite Z2Pos.id by lia; apply mant_log2; lia|lia].
  rewrite !Z2Pos.id by lia.
  set (a := Z.log2 (q * L)) in *. set (aq := Z.log2 q) in *.
  set (b := Z.log2 L) in *.
  assert (HN : mant (q * L) * 2 ^ 53 =
               mant q * (mant L * 2 ^ (1 - a + aq + b)) + 0).
  { unfold mant. fold a aq b.
    replace (q * L * 2 ^ (52 - a) * 2 ^ 53) with (q * L * (2 ^ (52 - a) * 2 ^ 53))
      by ring.
    replace (q * 2 ^ (52 - aq) * (L * 2 ^ (52 - b) * 2 ^ (1 - a + aq + b)) + 0)
      with (q * L * (2 ^ (52 - aq) * 2 ^ (52 - b) * 2 ^ (1 - a + aq + b))) by ring.
    f_equal. rewrite <- !pow2_split by lia. f_equal. lia. }
  rewrite HN, round53_exact; [| lia | lia | exact Hmq | lia | ].
  - cbn [fst snd]. f_equal. lia.
  - pose proof (pow2_pos (1 - a + aq + b) ltac:(lia)). nia.
Qed.

(** The two arithmetic facts behind the batch size: a value within the
    error of one or of two roundings of a non-integer quotient stays
    strictly between the integers around the quotient. *)
Lemma one_rounding (jQ LQ CLQ Q Zv : Z) :
  0 < Q -> 8 * jQ < 2 ^ 53 * Q ->
  CLQ - LQ + Q <= 8 * jQ -> 8 * jQ <= CLQ - Q ->
  2 * 2 ^ 52 * Z.abs (Zv - 8 * jQ) <= 8 * jQ ->
  CLQ - LQ < Zv <= CLQ.
Proof.
  change (2 ^ 53) with 9007199254740992. change (2 ^ 52) with 4503599627370496.
  lia.
Qed.

Lemma two_roundings (kQ LQ CLQ Q X1 Y Zv : Z) :
  0 < Q -> Q <= kQ -> kQ < 2 ^ 48 * Q ->
  X1 = 7205759403792794 * kQ ->
  5 * (CLQ - LQ) + Q <= 8 * kQ -> 8 * kQ <= 5 * CLQ - Q ->
  2 * 2 ^ 52 * Z.abs (Y - X1) <= X1 ->
  2 * 2 ^ 52 * Z.abs (Zv - Y) <= Y ->
  (CLQ - LQ) * 2 ^ 52 < Zv <= CLQ * 2 ^ 52.
Proof.
  change (2 ^ 48) with 281474976710656. change (2 ^ 52) with 4503599627370496.
  lia.
Qed.

Lemma descale (M C G S Zv LQ : Z) :
  0 < S -> Zv = M * S -> LQ = G * S ->
  C * LQ - LQ < Zv <= C * LQ ->
  (C - 1) * G < M <= C * G.
Proof.
  intros HS -> -> [Hlo Hhi]. split.
  - apply (Z.mul_lt_mono_pos_r S); [exact HS|]. lia.
  - apply (Z.mul_le_mono_pos_r _ _ S); [exact HS|]. lia.
Qed.

Lemma ceil_of_int (q : Z) :
  0 < q < 2 ^ 52 -> int_of_float64 (math_Ceil (float64_of_int q)) = q.
Proof.
  intros Hq. assert (Hq' : 0 < q < 2 ^ 53) by lia.
  pose proof (mant_range q Hq'). pose proof (Z.log2_nonneg q).
  assert (Z.log2 q < 52) by (apply Z.log2_lt_pow2; lia).
  rewrite float64_of_int_mant by exact Hq'.
  apply ceil_int; try lia.
  replace (- (Z.log2 q - 52)) with (52 - Z.log2 q) by lia. unfold mant.
  pose proof (pow2_pos (52 - Z.log2 q) ltac:(lia)). nia.
Qed.

Lemma not_div5 (k t : Z) : k mod 5 <> 0 -> 8 * k <> 5 * t.
Proof.
  intros H Heq. apply H.
  pose proof (Z.div_mod k 5 ltac:(lia)).
  pose proof (Z.mod_pos_bound k 5 ltac:(lia)). lia.
Qed.

Lemma one_rounding_scaled (j L C Q Zv : Z) :
  0 < Q -> 8 * j < 2 ^ 53 ->
  (C - 1) * L + 1 <= 8 * j -> 8 * j <= C * L - 1 ->
  2 * 2 ^ 52 * Z.abs (Zv - 8 * (j * Q)) <= 8 * (j * Q) ->
  C * (L * Q) - L * Q < Zv <= C * (L * Q).
Proof.
  intros HQ Hj Hlo Hhi Herr.
  apply (one_rounding (j * Q) (L * Q) (C * (L * Q)) Q Zv HQ);
    [nia|nia|nia|exact Herr].
Qed.

Lemma two_roundings_scaled (k L C Q Y Zv : Z) :
  0 < Q -> 1 <= k < 2 ^ 48 ->
  5 * ((C - 1) * L) + 1 <= 8 * k -> 8 * k <= 5 * (C * L) - 1 ->
  2 * 2 ^ 52 * Z.abs (Y - 7205759403792794 * (k * Q))
    <= 7205759403792794 * (k * Q) ->
  2 * 2 ^ 52 * Z.abs (Zv - Y) <= Y ->
  (C * (L * Q) - L * Q) * 2 ^ 52 < Zv <= C * (L * Q) * 2 ^ 52.
Proof.
  intros HQ Hk Hlo Hhi Herr1 Herr2.
  apply (two_roundings (k * Q) (L * Q) (C * (L * Q)) Q
           (7205759403792794 * (k * Q)) Y Zv HQ);
    [nia|nia|reflexivity|nia|nia|exact Herr1|exact Herr2].
Qed.

Lemma abs_scale (x s B : Z) :
  0 < s -> 2 * 2 ^ 52 * Z.abs x <= B ->
  2 * 2 ^ 52 * Z.abs (x * s) <= B * s.
Proof.
  intros Hs H. rewrite Z.abs_mul, (Z.abs_eq s) by lia.
  replace (2 * 2 ^ 52 * (Z.abs x * s)) with (2 * 2 ^ 52 * Z.abs x * s) by ring.
  apply Z.mul_le_mono_nonneg_r; lia.
Qed.

(** The float64 computation of [getRandomSize] gives the exact rounded-up
    quotient as long as [mask * size] stays below [2^48]. *)
Lemma batch_size_float (k L : Z) :
  1 <= k < 2 ^ 48 -> 1 <= L <= 256 ->
  int_of_float64
    (math_Ceil (float64_div (float64_mul float64_1_6 (float64_of_int k))
                  (float64_of_int L))) = ceil_div (8 * k) (5 * L).
Proof.
  intros Hk HL.
  set (C := ceil_div (8 * k) (5 * L)).
  pose proof (ceil_div_spec (8 * k) (5 * L) ltac:(lia)) as HC. fold C in HC.
  assert (HCpos : 0 < C) by nia.
  assert (HCub : C <= 8 * k) by nia.
  assert (HL53 : 0 < L < 2 ^ 53) by lia.
  pose proof (log2_small L HL53) as Hb. set (b := Z.log2 L) in *.
  assert (HmL : mant L = L * 2 ^ (52 - b)) by reflexivity.
  pose proof (pow2_pos (52 - b) ltac:(lia)) as HpL.
  destruct (Z.eq_dec (k mod 5) 0) as [H5|H5].
  - (* k = 5 j: the product is exact *)
    assert (Hkj : k = 5 * (k / 5)) by (pose proof (Z.div_mod k 5); lia).
    set (j := k / 5) in *.
    assert (H8 : 0 < 8 * j < 2 ^ 51) by lia.
    rewrite Hkj at 1. rewrite float64_mul_1_6_exact by lia.
    destruct (Z.eq_dec ((8 * j) mod L) 0) as [HLd|HLd].
    + (* and so is the quotient *)
      assert (Hq : 8 * j = (8 * j) / L * L)
        by (pose proof (Z.div_mod (8 * j) L); lia).
      set (q := 8 * j / L) in *.
      assert (Hqpos : 0 < q) by nia.
      rewrite Hq, float64_div_exact by nia.
      rewrite ceil_of_int by nia.
      symmetry. apply ceil_div_unique; nia.
    + assert (Hne : 8 * j <> C * L).
      { intros Heq. apply HLd. rewrite Heq. apply Z.mod_mul. lia. }
      assert (H853 : 0 < 8 * j < 2 ^ 53) by lia.
      pose proof (log2_small _ H853) as Ha8.
      assert (Ha8' : Z.log2 (8 * j) < 51) by (apply Z.log2_lt_pow2; lia).
      pose proof (mant_range _ H853) as Hm8.
      rewrite (float64_of_int_mant (8 * j)) by lia.
      destruct (float64_div_int (mant (8 * j)) (Z.log2 (8 * j) - 52) L
                  Hm8 ltac:(lia) HL53) as (M2 & u2 & Hdiv & HM2 & Hu2 & Herr).
      rewrite Hdiv. fold b.
      set (a8 := Z.log2 (8 * j)) in *.
      apply ceil_int; try lia.
      replace (- (a8 - 52 - b - 1 + u2)) with (53 - a8 + b - u2) by lia.
      set (g := 53 - a8 + b - u2).
      set (Q8 := 2 ^ (105 - a8)).
      assert (HQ8 : 0 < Q8) by (apply pow2_pos; lia).
      assert (Hm8' : mant (8 * j) * 2 ^ 53 = 8 * (j * Q8)).
      { unfold mant, Q8. fold a8.
        replace (105 - a8) with (52 - a8 + 53) by lia.
        rewrite pow2_split by lia. ring. }
      assert (HS : L * Q8 = 2 ^ g * (2 ^ u2 * 2 ^ (52 - b)) * L).
      { unfold Q8, g. rewrite <- !pow2_split by lia.
        replace (53 - a8 + b - u2 + (u2 + (52 - b))) with (105 - a8) by lia.
        ring. }
      pose proof (pow2_pos u2 ltac:(lia)) as Hpu2.
      apply (descale M2 C (2 ^ g) (2 ^ u2 * mant L) (M2 * 2 ^ u2 * mant L)
               (L * Q8)); [nia|ring|rewrite HS, HmL; ring|].
      rewrite Hm8' in Herr.
      apply (one_rounding_scaled j L C Q8 _ HQ8); [lia| | |exact Herr].
      * clear - HC Hkj. lia.
      * clear - HC Hkj Hne. lia.
  - (* two roundings *)
    assert (Hk53 : 0 < k < 2 ^ 53) by lia.
    pose proof (not_div5 k (C * L) H5) as Hne.
    pose proof (log2_small k Hk53) as Ha.
    assert (Ha' : Z.log2 k < 48) by (apply Z.log2_lt_pow2; lia).
    destruct (float64_mul_1_6 k Hk53) as (M1 & u1 & Hmul & HM1 & Hu1 & Herr1).
    rewrite Hmul. set (a := Z.log2 k) in *.
    destruct (float64_div_int M1 (a - 104 + u1) L HM1 ltac:(lia) HL53)
      as (M2 & u2 & Hdiv & HM2 & Hu2 & Herr2).
    rewrite Hdiv. fold b.
    apply ceil_int; try lia.
    replace (- (a - 104 + u1 - b - 1 + u2)) with (105 - a - u1 + b - u2) by lia.
    set (g := 105 - a - u1 + b - u2).
    set (Q := 2 ^ (105 - a)).
    assert (HQ : 0 < Q) by (apply pow2_pos; lia).
    pose proof (pow2_pos u1 ltac:(lia)) as Hpu1.
    pose proof (pow2_pos u2 ltac:(lia)) as Hpu2.
    assert (Hmk : mant k * 2 ^ 53 = k * Q).
    { unfold mant, Q. fold a. replace (105 - a) with (52 - a + 53) by lia.
      rewrite pow2_split by lia. ring. }
    assert (HS : L * Q * 2 ^ 52 = 2 ^ g * (2 ^ u2 * 2 ^ (52 - b) * 2 ^ u1) * L).
    { unfold Q, g. rewrite <- !pow2_split by lia.
      replace (105 - a - u1 + b - u2 + (u2 + (52 - b) + u1)) with (105 - a + 52)
        by lia.
      rewrite pow2_split by lia. ring. }
    apply (descale M2 C (2 ^ g) (2 ^ u2 * mant L * 2 ^ u1)
             (M2 * 2 ^ u2 * mant L * 2 ^ u1) (L * Q * 2 ^ 52));
      [nia|ring|rewrite HS, HmL; ring|].
    replace (C * (L * Q * 2 ^ 52) - L * Q * 2 ^ 52)
      with ((C * (L * Q) - L * Q) * 2 ^ 52) by ring.
    replace (C * (L * Q * 2 ^ 52)) with (C * (L * Q) * 2 ^ 52) by ring.
    apply (two_roundings_scaled k L C Q (M1 * 2 ^ u1 * 2 ^ 53) _ HQ Hk).
    + clear - HC. lia.
    + clear - HC Hne. lia.
    + replace (M1 * 2 ^ u1 * 2 ^ 53 - 7205759403792794 * (k * Q))
        with ((M1 * 2 ^ u1 - 7205759403792794 * mant k) * 2 ^ 53)
        by (rewrite <- Hmk; ring).
      replace (7205759403792794 * (k * Q))
        with (7205759403792794 * mant k * 2 ^ 53) by (rewrite <- Hmk; ring).
      apply abs_scale; [lia|exact Herr1].
    + replace (M2 * 2 ^ u2 * mant L * 2 ^ u1 - M1 * 2 ^ u1 * 2 ^ 53)
        with ((M2 * 2 ^ u2 * mant L - M1 * 2 ^ 53) * 2 ^ u1) by ring.
      replace (M1 * 2 ^ u1 * 2 ^ 53) with (M1 * 2 ^ 53 * 2 ^ u1) by ring.
      apply abs_scale; [lia|exact Herr2].
Qed.

(** ** Read as a whole *)

Lemma getRandomSize_Diverges (r : Reader) (size : Z) :
  getRandomSize r size <> Diverges.
Proof.
  unfold getRandomSize.
  destruct (len (alphabet r) =? 0); [done|]. destruct (mask r <=? 0); done.
Qed.

(** On the custom path [Read] either stops before it touches the source or
    the caller's slice, with a panic, or is the loop started at [n = 0] on
    the scratch slice, whose length is what [getRandomSize] said. *)
Lemma Read_custom (fuel : nat) (r : Reader) (pooled : nat -> byte) (p : list byte) :
  p <> [] -> alphabet r <> [] ->
  (exists msg,
      Read fuel r pooled p =
      {| res_out := Panics msg; res_p := p; res_reader := r; res_trace := [] |}) \/
  (exists rd size,
      rander r = Some rd /\ 0 <= size /\
      getRandomSize r (len p) = Returns size /\
      len (scratch size pooled) = size /\
      Read fuel r pooled p = readLoop fuel r rd (scratch size pooled) p 0).
Proof.
  intros Hp Ha. unfold Read.
  destruct (len p =? 0) eqn:E0; [apply Z.eqb_eq, len_nil_iff in E0; done|].
  destruct (len (alphabet r) =? 0) eqn:E1;
    [apply Z.eqb_eq, len_nil_iff in E1; done|].
  pose proof (getRandomSize_Diverges r (len p)) as Hd.
  destruct (getRandomSize r (len p)) as [size|msg|]; [|left; eauto|done].
  destruct (size <? 0) eqn:Es; [left; eauto|]. apply Z.ltb_ge in Es.
  destruct (rander r) as [rd|]; [|left; eauto].
  right. exists rd, size. split; [reflexivity|]. split; [exact Es|].
  split; [reflexivity|]. split; [|reflexivity].
  unfold len, scratch. destruct (size <=? bufSliceSize).
  - rewrite length_map, length_seq. lia.
  - rewrite length_replicate. lia.
Qed.

Lemma first_error_last (pre pre' post : list event) (ev ev' : event) (e : error) :
  Forall ev_ok pre' -> ev_err ev = Some e ->
  pre ++ ev :: post = pre' ++ [ev'] ->
  pre = pre' /\ ev = ev' /\ post = [].
Proof.
  intros Hok Herr. revert pre. induction Hok as [|x pre' Hx Hok IH]; intros pre.
  - destruct pre as [|y pre]; simpl.
    + intros [= -> <-]. done.
    + intros [= _ H]. destruct pre; discriminate.
  - destruct pre as [|y pre]; simpl.
    + intros [= -> _]. unfold ev_ok in Hx. congruence.
    + intros [= -> H]. destruct (IH _ H) as (-> & -> & ->). done.
Qed.

Lemma all_ok_no_error (pre post : list event) (ev : event) (e : error) :
  Forall ev_ok (pre ++ ev :: post) -> ev_err ev = Some e -> False.
Proof.
  intros H Herr. apply Forall_app in H as [_ H].
  apply Forall_cons in H as [H _]. unfold ev_ok in H. congruence.
Qed.

(** What a call of [Read] leaves, by the way it ends. *)
Lemma Read_spec (fuel : nat) (r : Reader) (pooled : nat -> byte) (p : list byte) :
  let res := Read fuel r pooled p in
  let tr := res_trace res in
  match res_out res with
  | Returns (n, None) =>
      Forall ev_ok tr /\ n = length p /\
      (alphabet r <> [] ->
       (length p <= length (symbols r (batch_bytes tr)))%nat /\
       res_p res = take (length p) (symbols r (batch_bytes tr)))
  | Returns (n, Some e) =>
      (tr = [] /\ p = [] /\ n = 0%nat /\ res_p res = p) \/
      (exists pre ev,
          tr = pre ++ [ev] /\ ev_err ev = Some e /\ Forall ev_ok pre /\
          n = length (symbols r (batch_bytes pre)) /\
          (alphabet r <> [] ->
           (n < length p)%nat /\
           res_p res = symbols r (batch_bytes pre) ++ drop n p))
  | Panics _ | Diverges => Forall ev_ok tr
  end.
Proof.
  cbv zeta.
  destruct p as [|b p]; [left; done|].
  destruct (decide (alphabet r = [])) as [Hal|Hal].
  - (* the default path: one call *)
    unfold Read. rewrite Hal. simpl.
    destruct (rander r) as [rd|]; [|constructor].
    destruct (call_Read rd (b :: p)) as [[[p1 cnt] err] rd1].
    destruct err as [e|]; simpl.
    + right. eexists [], _. simpl. repeat split; done.
    + destruct (encodeDefault p1); simpl.
      * split; [repeat constructor|]. split; [reflexivity|]. done.
      * repeat constructor.
  - destruct (Read_custom fuel r pooled (b :: p)) as
        [[msg Hr]|(rd & size & Hrd & _ & Hsize & _ & Hr)]; [done|done| |].
    { rewrite Hr. constructor. }
    rewrite Hr.
    pose proof (readLoop_spec fuel r rd (scratch size pooled) (b :: p) 0
                  ltac:(simpl; lia)) as [_ Hspec]. cbv zeta in Hspec.
    destruct (res_out (readLoop fuel r rd (scratch size pooled) (b :: p) 0))
      as [[n [e|]]|msg|].
    + destruct Hspec as (pre & ev & Htr & Herr & Hok & Hn & Hlt & Hres).
      right. exists pre, ev. rewrite take_0 in Hres. done.
    + destruct Hspec as (Hok & Hn & Hfill & Hres).
      rewrite take_0, Nat.sub_0_r in Hres. done.
    + done.
    + destruct Hspec as (_ & Hok & _). exact Hok.
Qed.

(** C6. In every call of [Read], a call to the source that returns an
    error is the last one made: [Read] returns at once with that very error
    and with the number of characters written until then, which are the
    symbols of the bytes accepted in the batches read before. *)
Theorem C6_error_aborts (fuel : nat) (r : Reader) (pooled : nat -> byte)
    (p : list byte) (pre post : list event) (ev : event) (e : error) :
  res_trace (Read fuel r pooled p) = pre ++ ev :: post ->
  ev_err ev = Some e ->
  post = [] /\ Forall ev_ok pre /\
  exists n,
    res_out (Read fuel r pooled p) = Returns (n, Some e) /\
    n = length (symbols r (batch_bytes pre)) /\
    (alphabet r <> [] ->
     take n (res_p (Read fuel r pooled p)) = symbols r (batch_bytes pre) /\
     drop n (res_p (Read fuel r pooled p)) = drop n p).
Proof.
  intros Htr Herr. pose proof (Read_spec fuel r pooled p) as Hspec.
  cbv zeta in Hspec. rewrite Htr in Hspec.
  destruct (res_out (Read fuel r pooled p)) as [[n [e'|]]|msg|].
  - destruct Hspec as [(Hnil & _)|(pre' & ev' & Htr' & Herr' & Hok & Hn & Hp)].
    { destruct pre; discriminate. }
    destruct (first_error_last _ _ _ _ _ _ Hok Herr Htr') as (-> & -> & ->).
    assert (e' = e) as -> by congruence.
    split; [reflexivity|]. split; [exact Hok|].
    exists n. split; [reflexivity|]. split; [exact Hn|].
    intros Hal. destruct (Hp Hal) as [_ ->]. rewrite Hn. split.
    + apply take_app_length.
    + rewrite drop_app_length. reflexivity.
  - destruct Hspec as (Hok & _). destruct (all_ok_no_error _ _ _ _ Hok Herr).
  - destruct (all_ok_no_error _ _ _ _ Hspec Herr).
  - destruct (all_ok_no_error _ _ _ _ Hspec Herr).
Qed.

Lemma C6_error_aborts_witness :
  let r := abReader (scriptedReader
                       [(["000"; "001"; "002"; "003"]%byte, 4, None);
                        ([], 0, Some io_EOF)]) in
  let p := replicate 5 "000"%byte in
  let ev1 := {| ev_len := 4; ev_buf := ["000"; "001"; "002"; "003"]%byte;
                ev_n := 4; ev_err := None |} in
  @nil event = [] /\ Forall ev_ok [ev1] /\
  exists n,
    res_out (Read 2 r freshPool p) = Returns (n, Some io_EOF) /\
    n = length (symbols r (batch_bytes [ev1])) /\
    (alphabet r <> [] ->
     take n (res_p (Read 2 r freshPool p)) = symbols r (batch_bytes [ev1]) /\
     drop n (res_p (Read 2 r freshPool p)) = drop n p).
Proof.
  intros r p ev1.
  apply (C6_error_aborts 2 r freshPool p [ev1] []
           {| ev_len := 4; ev_buf := ["000"; "001"; "002"; "003"]%byte;
              ev_n := 0; ev_err := Some io_EOF |} io_EOF);
    reflexivity.
Defined.

Lemma drop_eq_lookup {A} (l1 l2 : list A) (n i : nat) :
  drop n l1 = drop n l2 -> (n <= i)%nat -> l1 !! i = l2 !! i.
Proof.
  intros H Hi. replace i with (n + (i - n))%nat by lia.
  rewrite <- !lookup_drop, H. reflexivity.
Qed.

(** C10. On the custom-alphabet path a call that returns [(n, err)],
    whether [err] is nil or not, has written at most the positions
    [0 .. n-1] of the caller's slice: its length is unchanged and every
    position from [n] on holds what it held before the call. *)
Theorem C10_frame (fuel : nat) (r : Reader) (pooled : nat -> byte)
    (p : list byte) (n : nat) (err : option error) :
  alphabet r <> [] ->
  res_out (Read fuel r pooled p) = Returns (n, err) ->
  (n <= length p)%nat /\
  length (res_p (Read fuel r pooled p)) = length p /\
  forall i, (n <= i)%nat -> res_p (Read fuel r pooled p) !! i = p !! i.
Proof.
  intros Hal Hout. pose proof (Read_spec fuel r pooled p) as Hspec.
  cbv zeta in Hspec. rewrite Hout in Hspec.
  destruct err as [e|].
  - destruct Hspec as [(_ & _ & -> & ->)|(pre & ev & _ & _ & _ & Hn & Hp)].
    { split; [lia|]. done. }
    destruct (Hp Hal) as [Hlt Hres].
    assert (Hlen : length (res_p (Read fuel r pooled p)) = length p).
    { rewrite Hres, length_app, length_drop. lia. }
    split; [lia|]. split; [exact Hlen|]. intros i Hi.
    apply (drop_eq_lookup _ _ n); [|exact Hi].
    rewrite Hres, Hn. apply drop_app_length.
  - destruct Hspec as (_ & -> & Hp). destruct (Hp Hal) as [Hfill Hres].
    assert (Hlen : length (res_p (Read fuel r pooled p)) = length p).
    { rewrite Hres, length_take. lia. }
    split; [lia|]. split; [exact Hlen|]. intros i Hi.
    rewrite (lookup_ge_None_2 p i) by lia. apply lookup_ge_None_2. lia.
Qed.

Lemma C10_frame_witness :
  let r := abReader (scriptedReader
                       [(["000"; "001"; "002"; "003"]%byte, 4, None);
                        ([], 0, Some io_EOF)]) in
  let p := ["q"; "r"; "s"; "t"; "u"]%byte in
  (4 <= length p)%nat /\
  length (res_p (Read 2 r freshPool p)) = length p /\
  forall i, (4 <= i)%nat -> res_p (Read 2 r freshPool p) !! i = p !! i.
Proof.
  intros r p.
  apply (C10_frame 2 r freshPool p 4 (Some io_EOF)); [discriminate|reflexivity].
Defined.

(** ** The default path *)

Lemma encodeDefault_eq (p : list byte) :
  encodeDefault p = Some (defaultSymbol <$> p).
Proof.
  induction p as [|b p IH]; [reflexivity|]. cbn [encodeDefault].
  assert (H : DefaultAlphabet !! Z.to_nat (Z.land (byte_val b) 63)
              = Some (defaultSymbol b)).
  { unfold defaultSymbol. rewrite nth_lookup.
    destruct (DefaultAlphabet !! Z.to_nat (Z.land (byte_val b) 63)) eqn:E;
      [reflexivity|].
    apply lookup_ge_None in E. change (length DefaultAlphabet) with 64%nat in E.
    change 63 with (Z.ones 6) in E. rewrite Z.land_ones in E by lia.
    pose proof (Z.mod_pos_bound (byte_val b) (2 ^ 6) ltac:(lia)). lia. }
  rewrite H, IH. reflexivity.
Qed.

(** C4. With no custom alphabet, [Read] on a slice of length [N >= 1] calls
    the source exactly once, on the caller's slice of length [N]; if that
    call gives no error, [Read] returns [(N, nil)] and every byte [b] of the
    slice has become [DefaultAlphabet[b & 63]], none being rejected (if it
    gives an error, [Read] returns 0 and the error).  With
    the bytes 0, 1, ..., 20 and [N = 21] the output is the first 21
    characters of the default alphabet. *)
Theorem C4_default_path (fuel : nat) (rd : io_Reader) (m : Z)
    (pooled : nat -> byte) (b : byte) (bs : list byte) :
  (exists p1 cnt err rd1,
     call_Read rd (b :: bs) = (p1, cnt, err, rd1) /\
     length p1 = length (b :: bs) /\
     res_trace (Read fuel {| rander := Some rd; alphabet := []; mask := m |}
                  pooled (b :: bs)) =
       [{| ev_len := length (b :: bs); ev_buf := p1;
           ev_n := cnt; ev_err := err |}] /\
     (forall e, err = Some e ->
      res_out (Read fuel {| rander := Some rd; alphabet := []; mask := m |}
                 pooled (b :: bs)) = Returns (0%nat, Some e)) /\
     (err = None ->
      res_out (Read fuel {| rander := Some rd; alphabet := []; mask := m |}
                 pooled (b :: bs)) = Returns (length (b :: bs), None) /\
      res_p (Read fuel {| rander := Some rd; alphabet := []; mask := m |}
               pooled (b :: bs)) = defaultSymbol <$> p1)) /\
  res_out (Read fuel (defaultReaderOn (customRandReader (Some bytes_0_20)))
             pooled (replicate 21 "000"%byte)) = Returns (21%nat, None) /\
  res_p (Read fuel (defaultReaderOn (customRandReader (Some bytes_0_20)))
           pooled (replicate 21 "000"%byte)) = take 21 DefaultAlphabet.
Proof.
  split; [|split; reflexivity].
  unfold Read. cbn [alphabet rander]. change (len [] =? 0) with true.
  replace (len (b :: bs) =? 0) with false by (unfold len; simpl; lia).
  cbv iota.
  destruct (call_Read rd (b :: bs)) as [[[p1 cnt] err] rd1] eqn:Hcall.
  exists p1, cnt, err, rd1. split; [reflexivity|].
  split; [eapply call_Read_length; exact Hcall|].
  destruct err as [e|].
  - split; [reflexivity|]. split; [|discriminate]. intros e' [= <-]. reflexivity.
  - rewrite encodeDefault_eq. split; [reflexivity|]. split; [discriminate|].
    intros _. done.
Qed.

Lemma C4_default_path_witness :
  res_out (Read 0 (defaultReaderOn (newCustomRandReader 256)) freshPool
             (replicate 21 "000"%byte)) = Returns (21%nat, None) /\
  res_p (Read 0 (defaultReaderOn (newCustomRandReader 256)) freshPool
           (replicate 21 "000"%byte)) = take 21 DefaultAlphabet.
Proof.
  destruct (C4_default_path 0 (newCustomRandReader 256) 0 freshPool
              "000"%byte (replicate 20 "000"%byte))
    as [(p1 & cnt & err & rd1 & Hcall & _ & _ & _ & Hok) _].
  vm_compute in Hcall. injection Hcall as <- <- <- <-.
  destruct (Hok eq_refl) as [Hout Hp]. split; [exact Hout|].
  etransitivity; [exact Hp|reflexivity].
Defined.

(** ** The count the source reports *)







(** ** NewReader *)

Lemma applyOptions_app (pre rest : list ReaderOption) :
  forall r,
    applyOptions (pre ++ rest) r =
    match applyOptions pre r with
    | Returns (Some r', None) => applyOptions rest r'
    | other => other
    end.
Proof.
  induction pre as [|o pre IH]; intros r; [reflexivity|].
  cbn [app applyOptions].
  destruct (o r) as [[r' [e|]]|msg|]; try reflexivity.
  - apply IH.
Qed.

Lemma option_of_spec (o : option_arg) (r : Reader) :
  option_of o r =
  match spec_validate o with
  | Some e => Returns (r, Some e)
  | None => Returns (spec_configure r o, None)
  end.
Proof.
  destruct o as [a|[rd|]]; cbn [option_of spec_validate spec_configure];
    [|reflexivity|reflexivity].
  unfold WithAlphabet, MaxAlphabetSize.
  destruct (len a =? 0) eqn:E0; [reflexivity|].
  rewrite Z.gtb_ltb. destruct (256 <? len a) eqn:E1; [reflexivity|].
  rewrite initializeMask_eq.
  - reflexivity.
  - simpl. intros ->. discriminate.
Qed.

Lemma applyOptions_valid (opts : list option_arg) :
  Forall (fun o => spec_validate o = None) opts ->
  forall r,
    applyOptions (option_of <$> opts) r =
    Returns (Some (foldl spec_configure r opts), None).
Proof.
  induction 1 as [|o opts Ho _ IH]; intros r; [reflexivity|].
  cbn [fmap list_fmap applyOptions foldl].
  rewrite option_of_spec, Ho. apply IH.
Qed.

Lemma last_default_irrelevant {A} (l : list A) (d d' : A) :
  l <> [] -> List.last l d = List.last l d'.
Proof.
  induction l as [|a l IH]; [done|]. intros _.
  destruct l as [|b l]; [reflexivity|].
  change (List.last (b :: l) d = List.last (b :: l) d'). apply IH. done.
Qed.

Lemma last_cons_default {A} (a : A) (l : list A) (d : A) :
  List.last (a :: l) d = List.last l a.
Proof.
  destruct l as [|b l]; [reflexivity|].
  change (List.last (b :: l) d = List.last (b :: l) a).
  apply last_default_irrelevant. done.
Qed.

Lemma accepted_option_valid (o : option_arg) :
  accepted_option o -> spec_validate o = None.
Proof.
  destruct o as [a|[rd|]]; simpl; [|done|done].
  unfold MaxAlphabetSize. intros H.
  destruct (len a =? 0) eqn:E0; [apply Z.eqb_eq in E0; lia|].
  destruct (256 <? len a) eqn:E1; [apply Z.ltb_lt in E1; lia|]. reflexivity.
Qed.

Lemma foldl_configure (opts : list option_arg) :
  Forall accepted_option opts ->
  forall (r : Reader) (rd0 : io_Reader),
    rander r = Some rd0 ->
    rander (foldl spec_configure r opts) =
      Some (List.last (sources_of opts) rd0) /\
    alphabet (foldl spec_configure r opts) =
      List.last (alphabets_of opts) (alphabet r) /\
    mask (foldl spec_configure r opts) =
      match alphabets_of opts with
      | [] => mask r
      | _ => maskOf (len (alphabet (foldl spec_configure r opts)))
      end.
Proof.
  induction 1 as [|o opts Ho _ IH]; intros r rd0 Hrd; [done|].
  cbn [foldl]. destruct o as [a|[rd|]]; [| |done].
  - specialize (IH (spec_configure r (AlphabetArg a)) rd0 Hrd).
    destruct IH as (IH1 & IH2 & IH3).
    change (alphabets_of (AlphabetArg a :: opts)) with (a :: alphabets_of opts).
    change (sources_of (AlphabetArg a :: opts)) with (sources_of opts).
    rewrite last_cons_default. split; [exact IH1|]. split; [exact IH2|].
    rewrite IH3. destruct (alphabets_of opts); [|reflexivity].
    rewrite IH2. reflexivity.
  - specialize (IH (spec_configure r (RandReaderArg (Some rd))) rd eq_refl).
    destruct IH as (IH1 & IH2 & IH3).
    change (alphabets_of (RandReaderArg (Some rd) :: opts))
      with (alphabets_of opts).
    change (sources_of (RandReaderArg (Some rd) :: opts))
      with (rd :: sources_of opts).
    rewrite last_cons_default. done.
Qed.

Lemma valid_accepted_option (o : option_arg) :
  spec_validate o = None -> accepted_option o.
Proof.
  destruct o as [a|[rd|]]; simpl; [|done|done].
  unfold MaxAlphabetSize. pose proof (len_nonneg a).
  destruct (len a =? 0) eqn:E0; [discriminate|]. apply Z.eqb_neq in E0.
  destruct (256 <? len a) eqn:E1; [discriminate|]. apply Z.ltb_ge in E1.
  intros _. lia.
Qed.

(** C7. [NewReader] applies its options in order and stops at the first
    that fails, returning that option's error and no reader; when all
    succeed it returns, with no error, a reader that holds the source of
    the last [WithRandReader] ([rand.Reader] when there is none) and the
    alphabet of the last [WithAlphabet] with the mask of its length (no
    alphabet and mask 0 when there is none).  [WithAlphabet] fails exactly
    when the alphabet is empty or longer than 256, and on success stores
    the alphabet and the mask [initializeMask] computes for it, leaving the
    source; [WithRandReader] fails exactly when the source is nil, and on
    success stores the source, leaving alphabet and mask. *)
Theorem C7_NewReader (rand_Reader : io_Reader) :
  (* in order, stopping at the first failure, for options of any kind *)
  (forall (pre post : list ReaderOption) (o : ReaderOption) r r' e,
     applyOptions pre
       {| rander := Some rand_Reader; alphabet := []; mask := 0 |}
       = Returns (Some r, None) ->
     o r = Returns (r', Some e) ->
     NewReader rand_Reader (pre ++ o :: post) = Returns (None, Some e)) /\
  (forall (pre post : list option_arg) (o : option_arg) e,
     Forall (fun o' => spec_validate o' = None) pre ->
     spec_validate o = Some e ->
     NewReader rand_Reader (option_of <$> (pre ++ o :: post)) =
       Returns (None, Some e)) /\
  (* all options valid: the reader returned, field by field *)
  (forall opts : list option_arg,
     Forall (fun o => spec_validate o = None) opts ->
     NewReader rand_Reader (option_of <$> opts) =
       Returns (Some (foldl spec_configure
                        {| rander := Some rand_Reader; alphabet := [];
                           mask := 0 |} opts),
                None) /\
     exists r',
       NewReader rand_Reader (option_of <$> opts) = Returns (Some r', None) /\
       rander r' = Some (List.last (sources_of opts) rand_Reader) /\
       alphabet r' = List.last (alphabets_of opts) [] /\
       mask r' = match alphabets_of opts with
                 | [] => 0
                 | _ => maskOf (len (alphabet r'))
                 end) /\
  (* the two options *)
  (forall a r,
     ((exists r' e, WithAlphabet a r = Returns (r', Some e)) <->
      (a = [] \/ 256 < len a)) /\
     (a <> [] -> len a <= 256 ->
      initializeMask {| rander := rander r; alphabet := a; mask := mask r |} =
        Returns {| rander := rander r; alphabet := a; mask := maskOf (len a) |} /\
      WithAlphabet a r =
        Returns ({| rander := rander r; alphabet := a; mask := maskOf (len a) |},
                 None))) /\
  (forall rd r,
     ((exists r' e, WithRandReader rd r = Returns (r', Some e)) <-> rd = None) /\
     (forall x, rd = Some x ->
        WithRandReader rd r =
          Returns ({| rander := Some x; alphabet := alphabet r;
                      mask := mask r |}, None))) /\
  (* what the checks are *)
  (forall o, spec_validate o = None <-> accepted_option o).
Proof.
  split; [|split; [|split; [|split; [|split]]]].
  - intros pre post o r r' e Hpre Ho. unfold NewReader.
    rewrite applyOptions_app, Hpre. cbn [applyOptions]. rewrite Ho. reflexivity.
  - intros pre post o e Hpre Ho. unfold NewReader.
    rewrite fmap_app, applyOptions_app, (applyOptions_valid pre Hpre).
    cbn [fmap list_fmap applyOptions]. rewrite option_of_spec, Ho. reflexivity.
  - intros opts Hall.
    assert (Hnew : NewReader rand_Reader (option_of <$> opts) =
              Returns (Some (foldl spec_configure
                               {| rander := Some rand_Reader; alphabet := [];
                                  mask := 0 |} opts), None))
      by (apply applyOptions_valid; exact Hall).
    split; [exact Hnew|]. eexists. split; [exact Hnew|].
    apply (foldl_configure opts); [|reflexivity].
    eapply Forall_impl; [exact Hall|]. apply valid_accepted_option.
  - intros a r. pose proof (option_of_spec (AlphabetArg a) r) as H.
    cbn [option_of spec_validate spec_configure] in H.
    pose proof (len_nonneg a) as Hlen. pose proof (len_nil_iff a) as Hnil.
    destruct (len a =? 0) eqn:E0.
    { apply Z.eqb_eq in E0. split; [|intros Hn; destruct Hn; tauto].
      rewrite H. split; [tauto|eauto]. }
    apply Z.eqb_neq in E0.
    destruct (256 <? len a) eqn:E1.
    { apply Z.ltb_lt in E1. split; [|intros _ Hle; lia].
      rewrite H. split; [tauto|eauto]. }
    apply Z.ltb_ge in E1. split.
    + rewrite H. split.
      * intros (r' & e & [=]).
      * intros [Ha|Hlt]; [tauto|lia].
    + intros _ _. split; [|exact H].
      rewrite initializeMask_eq; [reflexivity|]. simpl. tauto.
  - intros [x|] r; cbn [WithRandReader].
    + split.
      * split; [intros (r' & e & [=])|discriminate].
      * intros y [= <-]. reflexivity.
    + split; [|discriminate]. split; [done|]. intros _. eauto.
  - intros o. split; [apply valid_accepted_option|apply accepted_option_valid].
Qed.

(** Scenario 5 of the specification: an alphabet of 257 symbols is
    refused with the length error and no reader is made.  With the same
    source and the test alphabet alone, the reader holds both. *)
Lemma C7_NewReader_witness :
  NewReader (newCustomRandReader 256)
    (option_of <$> ([RandReaderArg (Some (newCustomRandReader 1024))] ++
                    AlphabetArg (replicate 257 "a"%byte) ::
                    [AlphabetArg customAlphabet])) =
  Returns (None, Some (errors_New "alphabet is too long")) /\
  NewReader (newCustomRandReader 256)
    (option_of <$> [RandReaderArg (Some (newCustomRandReader 1024));
                    AlphabetArg customAlphabet]) =
  Returns (Some {| rander := Some (newCustomRandReader 1024);
                   alphabet := customAlphabet; mask := 63 |}, None).
Proof.
  split.
  - apply (proj1 (proj2 (C7_NewReader (newCustomRandReader 256)))).
    + repeat constructor.
    + reflexivity.
  - apply (proj1 (proj1 (proj2 (proj2 (C7_NewReader (newCustomRandReader 256))))
                   [RandReaderArg (Some (newCustomRandReader 1024));
                    AlphabetArg customAlphabet]
                   ltac:(repeat constructor))).
Defined.

(** ** Readers that [NewReader] built *)

Lemma spec_validate_alphabet (a : list byte) :
  spec_validate (AlphabetArg a) = None -> 1 <= len a <= 256.
Proof.
  cbn [spec_validate]. pose proof (len_nonneg a).
  destruct (len a =? 0) eqn:E0; [discriminate|].
  destruct (256 <? len a) eqn:E1; [discriminate|].
  apply Z.eqb_neq in E0. apply Z.ltb_ge in E1. lia.
Qed.

Lemma spec_configure_constructed (r : Reader) (o : option_arg) :
  spec_validate o = None -> constructed r -> constructed (spec_configure r o).
Proof.
  intros Hv [Hrd Hal]. destruct o as [a|[rd|]]; cbn [spec_configure].
  - split; [exact Hrd|]. right. cbn [alphabet mask].
    split; [apply spec_validate_alphabet; exact Hv|reflexivity].
  - split; [discriminate|exact Hal].
  - discriminate.
Qed.

Lemma applyOptions_constructed (opts : list option_arg) :
  forall r r',
    constructed r ->
    applyOptions (option_of <$> opts) r = Returns (Some r', None) ->
    constructed r'.
Proof.
  induction opts as [|o opts IH]; intros r r' Hr; cbn [fmap list_fmap applyOptions].
  - intros [= <-]. exact Hr.
  - rewrite option_of_spec. destruct (spec_validate o) eqn:Hv; [discriminate|].
    apply IH. apply spec_configure_constructed; assumption.
Qed.

Lemma applyOptions_no_panic (opts : list option_arg) :
  forall r msg, applyOptions (option_of <$> opts) r <> Panics msg.
Proof.
  induction opts as [|o opts IH]; intros r msg; cbn [fmap list_fmap applyOptions].
  - discriminate.
  - rewrite option_of_spec. destruct (spec_validate o); [discriminate|apply IH].
Qed.

Lemma NewReader_constructed (rand_Reader : io_Reader) (opts : list option_arg)
    (r : Reader) :
  NewReader rand_Reader (option_of <$> opts) = Returns (Some r, None) ->
  constructed r.
Proof.
  apply applyOptions_constructed. split; [discriminate|left; reflexivity].
Qed.

Lemma constructed_mask_pos (r : Reader) :
  constructed r -> alphabet r <> [] -> 0 < mask r.
Proof.
  intros [_ [Hal|[Hlen ->]]] Hne; [contradiction|].
  pose proof (maskOf_bounds (len (alphabet r)) ltac:(lia)) as Hb.
  destruct (Z.eq_dec (len (alphabet r)) 1) as [->|]; [rewrite maskOf_1|]; lia.
Qed.

Lemma getRandomSize_Returns (r : Reader) (size : Z) :
  alphabet r <> [] -> 0 < mask r -> exists k, getRandomSize r size = Returns k.
Proof.
  intros Hne Hm. unfold getRandomSize.
  destruct (len (alphabet r) =? 0) eqn:E0;
    [apply Z.eqb_eq, len_nil_iff in E0; contradiction|].
  destruct (mask r <=? 0) eqn:E1; [apply Z.leb_le in E1; lia|].
  eauto.
Qed.

(** ** The batch size *)

Lemma int_wrap_small (x : Z) : - 2 ^ 63 <= x < 2 ^ 63 -> int_wrap x = x.
Proof.
  intros H. unfold int_wrap. rewrite Z.mod_small; lia.
Qed.

Lemma getRandomSize_value (r : Reader) (size : Z) :
  1 <= len (alphabet r) <= 256 -> 1 <= mask r -> 1 <= size ->
  mask r * size < 2 ^ 48 ->
  getRandomSize r size =
  Returns (spec_batch_size (mask r) size (len (alphabet r))).
Proof.
  intros HL HM HN Hk. unfold getRandomSize.
  destruct (len (alphabet r) =? 0) eqn:E0; [apply Z.eqb_eq in E0; lia|].
  destruct (mask r <=? 0) eqn:E1; [apply Z.leb_le in E1; lia|].
  assert (1 <= mask r * size) by nia.
  rewrite int_wrap_small by lia.
  rewrite batch_size_float by lia. reflexivity.
Qed.

Lemma spec_batch_size_pos (M N L : Z) :
  1 <= L -> 1 <= M -> 1 <= N -> 0 < spec_batch_size M N L.
Proof.
  intros HL HM HN. unfold spec_batch_size.
  pose proof (ceil_div_spec (8 * (M * N)) (5 * L) ltac:(lia)) as [_ H].
  assert (0 < M * N) by nia. nia.
Qed.

Lemma spec_batch_size_ge (M N L : Z) :
  1 <= L -> 1 <= N -> 5 * L <= 8 * M -> N <= spec_batch_size M N L.
Proof.
  intros HL HN H. unfold spec_batch_size.
  pose proof (ceil_div_spec (8 * (M * N)) (5 * L) ltac:(lia)) as [_ Hc].
  assert (5 * L * N <= 8 * M * N) by nia.
  set (C := ceil_div (8 * (M * N)) (5 * L)) in *.
  assert (N * (5 * L) <= C * (5 * L)) by lia.
  apply (Z.mul_le_mono_pos_r _ _ (5 * L)); lia.
Qed.

(** C2, as stated, fails: for the alphabet "ab" the mask is 1, so
    [L <= M + 1], yet for an output of 5 characters [getRandomSize]
    returns 4. *)
Lemma C2_counterexample :
  let r := abReader (newCustomRandReader 256) in
  len (alphabet r) <= mask r + 1 /\
  getRandomSize r 5 = Returns 4 /\
  spec_batch_size (mask r) 5 (len (alphabet r)) = 4 /\ 4 < 5.
Proof. vm_compute. repeat split; discriminate. Qed.

(** C2, amended. For an alphabet of length [L] in [1,256], a mask
    [M >= 1] and a size [N >= 1] with [M * N < 2^48], [getRandomSize(N)]
    returns [ceil(1.6 * M * N / L)]; the result is positive, and it is at
    least [N] whenever [5 L <= 8 M], which [L <= M + 1] gives for every
    [M >= 2]. *)
Theorem C2_batch_size (r : Reader) (size : Z) :
  1 <= len (alphabet r) <= 256 -> 1 <= mask r -> 1 <= size ->
  mask r * size < 2 ^ 48 ->
  getRandomSize r size =
    Returns (spec_batch_size (mask r) size (len (alphabet r))) /\
  0 < spec_batch_size (mask r) size (len (alphabet r)) /\
  (5 * len (alphabet r) <= 8 * mask r ->
   size <= spec_batch_size (mask r) size (len (alphabet r))) /\
  (len (alphabet r) <= mask r + 1 -> 2 <= mask r ->
   size <= spec_batch_size (mask r) size (len (alphabet r))).
Proof.
  intros HL HM HN Hk.
  split; [apply getRandomSize_value; assumption|].
  split; [apply spec_batch_size_pos; lia|].
  split; intros; apply spec_batch_size_ge; lia.
Qed.

(** Why the size is bounded: far beyond any slice that fits a memory the
    two roundings show, and the result leaves the exact quotient. *)
Lemma getRandomSize_huge_size :
  let r := {| rander := None; alphabet := ["a"%byte]; mask := 1 |} in
  getRandomSize r 3251419590585737 = Returns 5202271344937179 /\
  spec_batch_size 1 3251419590585737 1 = 5202271344937180.
Proof. split; vm_compute; reflexivity. Qed.

(** The value the package's test expects: 34 for a size of 21 over the
    test alphabet. *)
Lemma C2_batch_size_witness :
  let r := {| rander := Some (newCustomRandReader 1024);
              alphabet := customAlphabet; mask := 63 |} in
  getRandomSize r 21 = Returns 34 /\
  0 < spec_batch_size 63 21 64 /\
  (5 * 64 <= 8 * 63 -> 21 <= spec_batch_size 63 21 64) /\
  (64 <= 63 + 1 -> 2 <= 63 -> 21 <= spec_batch_size 63 21 64).
Proof.
  intros r.
  exact (C2_batch_size r 21 ltac:(vm_compute; split; discriminate)
           ltac:(vm_compute; discriminate) ltac:(lia)
           ltac:(vm_compute; reflexivity)).
Defined.

(** ** No panic, and the alphabet of 256 symbols *)

Lemma maskOf_le_255 (size : Z) : 1 <= size <= 256 -> maskOf size <= 255.
Proof.
  intros H. destruct (Z.eq_dec size 1) as [->|Hn]; [rewrite maskOf_1; lia|].
  unfold maskOf. rewrite log2_lor_1 by lia.
  assert (Z.log2 (size - 1) < 8) by (apply Z.log2_lt_pow2; lia).
  pose proof (Z.log2_nonneg (size - 1)).
  assert (2 ^ (1 + Z.log2 (size - 1)) <= 2 ^ 8) by (apply Z.pow_le_mono_r; lia).
  change (2 ^ 8) with 256 in *. lia.
Qed.

(** The only panic a reader built by [NewReader] can meet in [Read] is
    the run time's on a negative scratch length, and only for a caller's
    slice of [2^40] bytes or more. *)
Lemma Read_constructed_panics (fuel : nat) (r : Reader) (pooled : nat -> byte)
    (p : list byte) (msg : string) :
  constructed r ->
  res_out (Read fuel r pooled p) = Panics msg ->
  msg = "slice bounds out of range"%string /\ 2 ^ 40 <= len p.
Proof.
  intros Hc Hout. pose proof Hc as [Hrd Hal].
  destruct (rander r) as [rd|] eqn:Erd; [|done].
  destruct p as [|b p]; [discriminate|].
  assert (Hp : 1 <= len (b :: p)) by (unfold len; simpl; lia).
  unfold Read in Hout. rewrite Erd in Hout.
  replace (len (b :: p) =? 0) with false in Hout by (symmetry; lia).
  destruct (decide (alphabet r = [])) as [Ea|Hne].
  - rewrite Ea in Hout. change (len [] =? 0) with true in Hout. cbv iota in Hout.
    destruct (call_Read rd (b :: p)) as [[[p1 cnt] err] rd1].
    destruct err; [discriminate|].
    rewrite encodeDefault_eq in Hout. discriminate.
  - destruct Hal as [Hal|[Hlen Hmask]]; [done|].
    pose proof (constructed_mask_pos r Hc Hne) as Hm.
    replace (len (alphabet r) =? 0) with false in Hout by (symmetry; lia).
    destruct (getRandomSize_Returns r (len (b :: p)) Hne Hm) as [k Hk].
    rewrite Hk in Hout.
    destruct (Z.ltb_spec k 0) as [Hneg|Hpos].
    + cbn [res_out] in Hout. split; [congruence|].
      destruct (Z.lt_ge_cases (len (b :: p)) (2 ^ 40)) as [Hsmall|Hbig];
        [exfalso|exact Hbig].
      assert (Hub : mask r <= 255)
        by (rewrite Hmask; apply maskOf_le_255; exact Hlen).
      pose proof (getRandomSize_value r (len (b :: p)) Hlen ltac:(lia) Hp
                    ltac:(nia)) as Hsize.
      pose proof (spec_batch_size_pos (mask r) (len (b :: p))
                    (len (alphabet r)) ltac:(lia) ltac:(lia) Hp) as Hgt.
      rewrite Hk in Hsize. injection Hsize as ->. lia.
    + match type of Hout with
      | context [readLoop fuel r rd ?rnd (b :: p) 0] =>
          pose proof (readLoop_spec fuel r rd rnd (b :: p) 0
                        ltac:(simpl; lia)) as [_ Hspec]
      end.
      cbv zeta in Hspec. rewrite Hout in Hspec. done.
Qed.

(** C9. For a reader that [NewReader] returned: whenever the alphabet is
    set the mask is positive, so [getRandomSize] returns and its two
    panics cannot fire, nor can the one of [initializeMask] while the
    options are applied; no call of [Read] ends in one of these panics (a
    call can only panic at all on a negative scratch length, for a
    caller's slice of [2^40] bytes or more). *)
Theorem C9_no_contract_panic (rand_Reader : io_Reader)
    (opts : list option_arg) (r : Reader) :
  NewReader rand_Reader (option_of <$> opts) = Returns (Some r, None) ->
  (alphabet r <> [] ->
   0 < mask r /\ forall size, exists k, getRandomSize r size = Returns k) /\
  (forall opts' msg,
     NewReader rand_Reader (option_of <$> opts') <> Panics msg) /\
  (forall fuel pooled p msg,
     res_out (Read fuel r pooled p) = Panics msg ->
     msg <> "nanoid: alphabet invalid"%string /\
     msg <> "nanoid: mask invalid"%string /\
     2 ^ 40 <= len p).
Proof.
  intros Hnew. pose proof (NewReader_constructed _ _ _ Hnew) as Hc.
  split; [|split].
  - intros Hne. pose proof (constructed_mask_pos r Hc Hne) as Hm.
    split; [exact Hm|]. intros size. apply getRandomSize_Returns; assumption.
  - intros opts' msg. apply applyOptions_no_panic.
  - intros fuel pooled p msg Hout.
    destruct (Read_constructed_panics fuel r pooled p msg Hc Hout) as [-> Hbig].
    split; [discriminate|]. split; [discriminate|exact Hbig].
Qed.

Lemma C9_no_contract_panic_witness :
  let r := {| rander := Some (newCustomRandReader 1024);
              alphabet := customAlphabet; mask := 63 |} in
  (alphabet r <> [] ->
   0 < mask r /\ forall size, exists k, getRandomSize r size = Returns k) /\
  (forall opts' msg,
     NewReader (newCustomRandReader 256) (option_of <$> opts') <> Panics msg) /\
  (forall fuel pooled p msg,
     res_out (Read fuel r pooled p) = Panics msg ->
     msg <> "nanoid: alphabet invalid"%string /\
     msg <> "nanoid: mask invalid"%string /\
     2 ^ 40 <= len p).
Proof.
  intros r.
  apply (C9_no_contract_panic (newCustomRandReader 256)
           [RandReaderArg (Some (newCustomRandReader 1024));
            AlphabetArg customAlphabet]).
  reflexivity.
Defined.

Lemma symbols_none (r : Reader) (bytes : list byte) :
  (forall b, accepted r b = false) -> symbols r bytes = [].
Proof.
  intros H. unfold symbols. induction bytes as [|b bytes IH]; [reflexivity|].
  rewrite filter_cons, decide_False by (rewrite H; discriminate). exact IH.
Qed.

Lemma accepted_256 (r : Reader) (b : byte) :
  len (alphabet r) = 256 -> accepted r b = false.
Proof.
  intros H. unfold accepted. rewrite H. change (to_byte 256) with 0.
  apply Z.ltb_ge. apply position_nonneg.
Qed.

(** C3 at an alphabet of 256 symbols, which [WithAlphabet] admits and for
    which it stores the mask 255: every masked byte is below the length of
    the alphabet, yet [byte(len(r.alphabet))] is 0 and no byte is
    accepted.  [Read] writes nothing and can only return with count 0 and
    an error of the source: when the source never fails, it never
    returns. *)
Theorem C3_alphabet_256_never_fills (fuel : nat) (r : Reader)
    (pooled : nat -> byte) (p : list byte) :
  len (alphabet r) = 256 -> mask r = 255 -> p <> [] ->
  (forall b, Z.land (byte_val b) (mask r) < len (alphabet r) /\
             accepted r b = false) /\
  res_p (Read fuel r pooled p) = p /\
  (forall n err,
     res_out (Read fuel r pooled p) = Returns (n, err) ->
     n = 0%nat /\ err <> None).
Proof.
  intros HL HM Hp.
  assert (Hacc : forall b, accepted r b = false)
    by (intros b; apply accepted_256; exact HL).
  assert (Hne : alphabet r <> []) by (intros E; rewrite E in HL; discriminate).
  split.
  { intros b. split; [|apply Hacc]. rewrite HL, HM.
    change 255 with (Z.ones 8). rewrite Z.land_ones by lia.
    pose proof (Z.mod_pos_bound (byte_val b) (2 ^ 8) ltac:(lia)). lia. }
  destruct (Read_custom fuel r pooled p Hp Hne) as
      [[msg Hr]|(rd & size & _ & _ & _ & _ & Hr)].
  { rewrite Hr. split; [reflexivity|]. discriminate. }
  rewrite Hr.
  assert (Hlen : (0 < length p)%nat) by (destruct p; [done|simpl; lia]).
  pose proof (readLoop_spec fuel r rd (scratch size pooled) p 0 Hlen)
    as [_ Hspec].
  cbv zeta in Hspec.
  destruct (res_out (readLoop fuel r rd (scratch size pooled) p 0))
    as [[n [e|]]|msg|].
  - destruct Hspec as (pre & ev & _ & _ & _ & Hn & _ & Hres).
    rewrite symbols_none in Hn, Hres by exact Hacc. simpl in Hn. subst n.
    rewrite Hres. split; [reflexivity|].
    intros n err [= <- <-]. done.
  - destruct Hspec as (_ & _ & Hfill & _).
    rewrite symbols_none in Hfill by exact Hacc. simpl in Hfill. lia.
  - done.
  - destruct Hspec as (_ & _ & _ & Hres).
    rewrite symbols_none in Hres by exact Hacc. rewrite Hres.
    split; [reflexivity|]. discriminate.
Qed.

Lemma C3_alphabet_256_never_fills_witness :
  (forall b, Z.land (byte_val b) (mask reader256) < len (alphabet reader256) /\
             accepted reader256 b = false) /\
  res_p (Read 50 reader256 freshPool (replicate 21 "000"%byte)) =
    replicate 21 "000"%byte /\
  (forall n err,
     res_out (Read 50 reader256 freshPool (replicate 21 "000"%byte)) =
       Returns (n, err) ->
     n = 0%nat /\ err <> None).
Proof.
  apply (C3_alphabet_256_never_fills 50 reader256 freshPool
           (replicate 21 "000"%byte)); [reflexivity|reflexivity|discriminate].
Defined.

(** The reader that [NewReader] builds over 256 symbols is [reader256],
    and on it [Read] never returns: for every number of batches allowed,
    the loop is still running. *)
Lemma NewReader_reader256 :
  NewReader (newCustomRandReader 256)
    [WithRandReader (Some (newCustomRandReader 1024)); WithAlphabet alphabet256]
  = Returns (Some reader256, None).
Proof. reflexivity. Qed.

Lemma Read_reader256_diverges (fuel : nat) :
  res_out (Read fuel reader256 freshPool (replicate 21 "000"%byte)) = Diverges.
Proof.
  assert (Hloop : forall random,
            length random = 34%nat ->
            res_out (readLoop fuel reader256 (newCustomRandReader 1024) random
                       (replicate 21 "000"%byte) 0) = Diverges).
  { induction fuel as [|fuel IH]; intros random Hlen; [reflexivity|].
    cbn [readLoop].
    assert (Hcall : call_Read (newCustomRandReader 1024) random =
                    (take 34 (default [] (io_cur (newCustomRandReader 1024))),
                     34, None, newCustomRandReader 1024)).
    { unfold call_Read, newCustomRandReader, customRandReader.
      cbn [io_Read io_cur io_state customRandReader_Read].
      rewrite length_fmap, length_seq, Hlen. cbn [Nat.min Nat.ltb Nat.leb].
      unfold slice_store. rewrite Hlen, length_take, length_fmap, length_seq.
      cbn [Nat.min]. rewrite drop_ge by lia. rewrite app_nil_r, take_take.
      reflexivity. }
    rewrite Hcall. cbn [with_event res_out].
    set (random1 := take 34 (default [] (io_cur (newCustomRandReader 1024)))).
    assert (Hscan : scan reader256 random1 (replicate 21 "000"%byte) 0 =
                    ScanMore (replicate 21 "000"%byte) 0) by (vm_compute; reflexivity).
    rewrite Hscan. apply IH. reflexivity. }
  apply (Hloop (scratch 34 freshPool)). reflexivity.
Qed.

(** ** The custom path on alphabets of fewer than 256 symbols

    What C3 says does hold below 256 symbols: the test of the loop is the
    comparison with the length of the alphabet, every character written is
    a symbol of the alphabet, and [Read] returns the full count as soon as
    the source has delivered enough accepted bytes without failing. *)

Lemma accepted_below_256 (r : Reader) (b : byte) :
  len (alphabet r) <= 255 -> 0 <= mask r <= 255 ->
  (accepted r b = true <->
   Z.land (byte_val b) (mask r) < len (alphabet r)) /\
  (accepted r b = true ->
   alphabet r !! Z.to_nat (Z.land (byte_val b) (mask r)) = Some (symbol r b)).
Proof.
  intros HL HM. pose proof (len_nonneg (alphabet r)).
  assert (Hpos : position r b = Z.land (byte_val b) (mask r))
    by (unfold position, to_byte; rewrite Z.mod_small by lia; reflexivity).
  split.
  - unfold accepted, to_byte. rewrite Hpos, Z.mod_small by lia. apply Z.ltb_lt.
  - intros Hacc. rewrite <- Hpos. apply accepted_lookup. exact Hacc.
Qed.

Lemma symbols_in_alphabet (r : Reader) (bytes : list byte) :
  Forall (fun c => c ∈ alphabet r) (symbols r bytes).
Proof.
  unfold symbols. apply Forall_fmap, Forall_forall. intros b Hb.
  apply list_elem_of_filter in Hb as [Hacc _]. simpl.
  eapply list_elem_of_lookup_2. apply accepted_lookup. exact Hacc.
Qed.

Lemma readLoop_returns (k : nat) (r : Reader) :
  forall (fuel : nat) (rd : io_Reader) (random p : list byte) (n : nat),
    (k <= fuel)%nat -> (n < length p)%nat ->
    Forall (fun x => x.2 = None) (batches k rd random) ->
    (length p <= n + length (symbols r (concat ((batches k rd random).*1))))%nat ->
    res_out (readLoop fuel r rd random p n) = Returns (length p, None).
Proof.
  induction k as [|k IH]; intros fuel rd random p n Hk Hn Hok Hfill.
  - simpl in Hfill. unfold symbols in Hfill. simpl in Hfill. lia.
  - destruct fuel as [|fuel]; [lia|]. cbn [readLoop batches] in *.
    destruct (call_Read rd random) as [[[random1 cnt] err] rd1].
    apply Forall_cons in Hok as [Herr Hok]. simpl in Herr. subst err.
    rewrite fmap_cons in Hfill. cbn [fst concat] in Hfill.
    rewrite symbols_app, length_app in Hfill.
    pose proof (scan_spec r random1 p n Hn) as Hscan.
    destruct (scan r random1 p n) as [p' n'|p' n'|]; [| |done].
    + destruct Hscan as (-> & _). reflexivity.
    + destruct Hscan as (-> & Hlt & ->). cbn [with_event res_out].
      assert (Hlen : length (take n p ++ symbols r random1 ++
                             drop (n + length (symbols r random1)) p) = length p)
        by (apply splice_length; [reflexivity|lia]).
      rewrite <- Hlen. apply IH; rewrite ?Hlen; try lia. exact Hok.
Qed.

(** [Read] on the custom path fills the caller's slice with symbols of the
    alphabet once the first [k] batches, read without an error, hold as
    many accepted bytes as the slice is long. *)
Lemma Read_custom_fills (fuel k : nat) (r : Reader) (rd : io_Reader)
    (pooled : nat -> byte) (p : list byte) (size : Z) :
  p <> [] -> alphabet r <> [] -> rander r = Some rd ->
  getRandomSize r (len p) = Returns size -> 0 <= size ->
  (k <= fuel)%nat ->
  Forall (fun x => x.2 = None) (batches k rd (scratch size pooled)) ->
  (length p <=
   length (symbols r (concat ((batches k rd (scratch size pooled)).*1))))%nat ->
  res_out (Read fuel r pooled p) = Returns (length p, None) /\
  length (res_p (Read fuel r pooled p)) = length p /\
  Forall (fun c => c ∈ alphabet r) (res_p (Read fuel r pooled p)).
Proof.
  intros Hp Hal Hrd Hsize Hpos Hk Hok Hfill.
  assert (Hout : res_out (Read fuel r pooled p) = Returns (length p, None)).
  { unfold Read.
    replace (len p =? 0) with false
      by (symmetry; apply Z.eqb_neq; rewrite len_nil_iff; exact Hp).
    replace (len (alphabet r) =? 0) with false
      by (symmetry; apply Z.eqb_neq; rewrite len_nil_iff; exact Hal).
    rewrite Hsize, Hrd.
    replace (size <? 0) with false by (symmetry; apply Z.ltb_ge; lia).
    apply readLoop_returns with (k := k);
      [exact Hk|destruct p; [done|simpl; lia]|exact Hok|exact Hfill]. }
  split; [exact Hout|].
  pose proof (Read_spec fuel r pooled p) as Hspec. cbv zeta in Hspec.
  rewrite Hout in Hspec. destruct Hspec as (_ & _ & Hres).
  destruct (Hres Hal) as [Hlen ->].
  split; [rewrite length_take; lia|].
  apply Forall_take. apply symbols_in_alphabet.
Qed.

(** Scenario 2 of the specification, which is the package's test: the
    test alphabet of 64 symbols, size 21, the cyclic source. *)
Lemma Read_customAlphabet_test :
  let r := {| rander := Some (newCustomRandReader 1024);
              alphabet := customAlphabet; mask := 63 |} in
  res_out (Read 1 r freshPool (replicate 21 "000"%byte)) =
    Returns (21%nat, None) /\
  res_p (Read 1 r freshPool (replicate 21 "000"%byte)) =
    take 21 customAlphabet.
Proof. split; reflexivity. Qed.

(** * Further properties of the code *)

(** ** Read: its count, its batches, its termination *)

Lemma accepted_no_alphabet (r : Reader) (b : byte) :
  alphabet r = [] -> accepted r b = false.
Proof.
  intros H. unfold accepted. rewrite H. change (to_byte (len [])) with 0.
  apply Z.ltb_ge. apply position_nonneg.
Qed.

(** X1. The count [Read] returns tells the caller all there is to know:
    the error is nil exactly when the count is the length of a non-empty
    slice; with an error the count is strictly below the length of the
    slice, unless the slice is empty, for which [Read] returns 0 and
    [io.ErrShortBuffer] without calling the source. *)
Theorem X1_Read_count (fuel : nat) (r : Reader) (pooled : nat -> byte)
    (p : list byte) (n : nat) (err : option error) :
  res_out (Read fuel r pooled p) = Returns (n, err) ->
  (err = None <-> n = length p /\ p <> []) /\
  (err <> None -> p <> [] -> (n < length p)%nat) /\
  (p = [] ->
   n = 0%nat /\ err = Some io_ErrShortBuffer /\
   res_trace (Read fuel r pooled p) = []).
Proof.
  intros Hout. destruct p as [|b p].
  { unfold Read in *. simpl in *. injection Hout as <- <-.
    split; [split; [discriminate|intros [_ H]; done]|]. split; done. }
  pose proof (Read_spec fuel r pooled (b :: p)) as Hspec. cbv zeta in Hspec.
  rewrite Hout in Hspec.
  assert (Hshort : err <> None -> (n < length (b :: p))%nat).
  { destruct err as [e|]; [intros _|done].
    destruct Hspec as [(_ & [=] & _)|(pre & ev & _ & _ & _ & Hn & Hp)].
    destruct (decide (alphabet r = [])) as [Hal|Hal].
    - rewrite symbols_none in Hn by (intros x; apply accepted_no_alphabet, Hal).
      subst n. simpl. lia.
    - apply Hp, Hal. }
  split; [|split; [intros H _; apply Hshort, H|discriminate]].
  destruct err as [e|].
  - split; [discriminate|]. intros [Hn _].
    specialize (Hshort ltac:(discriminate)). lia.
  - destruct Hspec as (_ & -> & _). done.
Qed.

Lemma X1_Read_count_witness :
  (@None error = None <-> 21%nat = length (replicate 21 "000"%byte) /\
                   replicate 21 "000"%byte <> []) /\
  (@None error <> None -> replicate 21 "000"%byte <> [] ->
   (21 < length (replicate 21 "000"%byte))%nat) /\
  (replicate 21 "000"%byte = [] ->
   21%nat = 0%nat /\ None = Some io_ErrShortBuffer /\
   res_trace (Read 1 (defaultReaderOn (customRandReader (Some bytes_0_20)))
                freshPool (replicate 21 "000"%byte)) = []).
Proof.
  apply (X1_Read_count 1 (defaultReaderOn (customRandReader (Some bytes_0_20)))
           freshPool (replicate 21 "000"%byte) 21 None).
  vm_compute. reflexivity.
Defined.

(** The call that fills the caller's slice is the last one, and the calls
    before it did not give enough accepted bytes. *)
Lemma readLoop_last_needed (fuel : nat) (r : Reader) :
  forall (rd : io_Reader) (random p : list byte) (n n' : nat),
    (n < length p)%nat ->
    res_out (readLoop fuel r rd random p n) = Returns (n', None) ->
    exists pre ev,
      res_trace (readLoop fuel r rd random p n) = pre ++ [ev] /\
      (n + length (symbols r (batch_bytes pre)) < length p)%nat.
Proof.
  induction fuel as [|fuel IH]; intros rd random p n n' Hn; cbn [readLoop];
    [discriminate|].
  destruct (call_Read rd random) as [[[random1 cnt] err] rd1].
  destruct err as [e|]; [discriminate|].
  pose proof (scan_spec r random1 p n Hn) as Hscan.
  destruct (scan r random1 p n) as [p1 n1|p1 n1|]; [| |done].
  - intros _. eexists [], _. split; [reflexivity|].
    unfold batch_bytes, symbols. simpl. lia.
  - destruct Hscan as (-> & Hlt & ->). cbn [with_event res_out res_trace].
    intros Hout.
    assert (Hlen : length (take n p ++ symbols r random1 ++
                           drop (n + length (symbols r random1)) p) = length p)
      by (apply splice_length; [reflexivity|lia]).
    destruct (IH _ _ _ _ _ ltac:(rewrite Hlen; exact Hlt) Hout)
      as (pre & ev & -> & Hpre).
    eexists (_ :: pre), ev. split; [reflexivity|].
    rewrite batch_bytes_cons, symbols_app, length_app. cbn [ev_buf].
    rewrite Hlen in Hpre. lia.
Qed.

(** X2. A call of [Read] with a custom alphabet that returns without an
    error asked the source, in every call, for the number of bytes
    [getRandomSize] gave for the length of the slice; the slice then holds
    the characters of the accepted bytes in the order the source gave
    them, and the last call was needed: the calls before it had given
    fewer accepted bytes than the slice is long. *)
Theorem X2_Read_batches (fuel : nat) (r : Reader) (pooled : nat -> byte)
    (p : list byte) (n : nat) :
  alphabet r <> [] ->
  res_out (Read fuel r pooled p) = Returns (n, None) ->
  (exists size,
      getRandomSize r (len p) = Returns size /\
      Forall (fun ev => Z.of_nat (ev_len ev) = size /\ len (ev_buf ev) = size)
        (res_trace (Read fuel r pooled p))) /\
  res_p (Read fuel r pooled p) =
    take (length p) (symbols r (batch_bytes (res_trace (Read fuel r pooled p)))) /\
  exists pre ev,
    res_trace (Read fuel r pooled p) = pre ++ [ev] /\
    (length (symbols r (batch_bytes pre)) < length p)%nat.
Proof.
  intros Hal Hout.
  assert (Hp : p <> []).
  { intros ->. unfold Read in Hout. simpl in Hout. discriminate. }
  pose proof (Read_spec fuel r pooled p) as Hspec. cbv zeta in Hspec.
  rewrite Hout in Hspec. destruct Hspec as (_ & _ & Hres).
  destruct (Hres Hal) as [_ Hres'].
  destruct (Read_custom fuel r pooled p Hp Hal)
    as [[msg Hr]|(rd & size & _ & _ & Hsize & Hlen & Hr)].
  { rewrite Hr in Hout. discriminate. }
  assert (Hn : (0 < length p)%nat) by (destruct p; [done|simpl; lia]).
  split; [|split; [exact Hres'|]].
  - exists size. split; [exact Hsize|]. rewrite Hr.
    pose proof (readLoop_spec fuel r rd (scratch size pooled) p 0 Hn)
      as [Hall _].
    eapply Forall_impl; [exact Hall|]. simpl. unfold len in *.
    intros ev [-> ->]. done.
  - rewrite Hr in *. apply (readLoop_last_needed _ _ _ _ _ _ _ Hn Hout).
Qed.

Lemma X2_Read_batches_witness :
  let r := {| rander := Some (newCustomRandReader 1024);
              alphabet := customAlphabet; mask := 63 |} in
  let p := replicate 21 "000"%byte in
  (exists size,
      getRandomSize r (len p) = Returns size /\
      Forall (fun ev => Z.of_nat (ev_len ev) = size /\ len (ev_buf ev) = size)
        (res_trace (Read 1 r freshPool p))) /\
  res_p (Read 1 r freshPool p) =
    take (length p) (symbols r (batch_bytes (res_trace (Read 1 r freshPool p)))) /\
  exists pre ev,
    res_trace (Read 1 r freshPool p) = pre ++ [ev] /\
    (length (symbols r (batch_bytes pre)) < length p)%nat.
Proof.
  intros r p. apply (X2_Read_batches 1 r freshPool p 21).
  - discriminate.
  - vm_compute. reflexivity.
Defined.

Lemma readLoop_trace_le (k : nat) (r : Reader) :
  forall (fuel : nat) (rd : io_Reader) (random p : list byte) (n : nat),
    (k <= fuel)%nat -> (n < length p)%nat ->
    Forall (fun x => x.2 = None) (batches k rd random) ->
    (length p <= n + length (symbols r (concat ((batches k rd random).*1))))%nat ->
    (length (res_trace (readLoop fuel r rd random p n)) <= k)%nat.
Proof.
  induction k as [|k IH]; intros fuel rd random p n Hk Hn Hok Hfill.
  - simpl in Hfill. unfold symbols in Hfill. simpl in Hfill. lia.
  - destruct fuel as [|fuel]; [lia|]. cbn [readLoop batches] in *.
    destruct (call_Read rd random) as [[[random1 cnt] err] rd1].
    apply Forall_cons in Hok as [Herr Hok]. simpl in Herr. subst err.
    rewrite fmap_cons in Hfill. cbn [fst concat] in Hfill.
    rewrite symbols_app, length_app in Hfill.
    pose proof (scan_spec r random1 p n Hn) as Hscan.
    destruct (scan r random1 p n) as [p' n'|p' n'|]; [| |done].
    + simpl. lia.
    + destruct Hscan as (-> & Hlt & ->). cbn [with_event res_trace length].
      assert (Hlen : length (take n p ++ symbols r random1 ++
                             drop (n + length (symbols r random1)) p) = length p)
        by (apply splice_length; [reflexivity|lia]).
      apply le_n_S. apply IH; rewrite ?Hlen; try lia. exact Hok.
Qed.

Lemma constructed_getRandomSize (r : Reader) (size : Z) :
  constructed r -> alphabet r <> [] -> 1 <= size < 2 ^ 40 ->
  getRandomSize r size =
    Returns (spec_batch_size (mask r) size (len (alphabet r))) /\
  0 < spec_batch_size (mask r) size (len (alphabet r)).
Proof.
  intros Hc Hal Hsize. pose proof (constructed_mask_pos r Hc Hal) as Hm.
  destruct Hc as [_ [Hnil|[HL HM]]]; [done|].
  pose proof (maskOf_le_255 _ HL) as H255. rewrite <- HM in H255.
  split; [|apply spec_batch_size_pos; lia].
  apply getRandomSize_value; [lia|lia|lia|].
  apply Z.le_lt_trans with (255 * size); [|lia].
  apply Z.mul_le_mono_nonneg_r; lia.
Qed.

(** X3. A reader built by [NewReader] with a custom alphabet, asked to fill
    a slice of fewer than [2^40] bytes, returns as soon as the source has
    given enough accepted bytes: if the first [k] batches, of
    [ceil(8*M*N / (5*L))] bytes each, come without an error and hold as
    many accepted bytes as the slice is long, [Read] returns the length of
    the slice and a nil error after at most [k] calls to the source, and
    the slice holds characters of the alphabet only. *)
Theorem X3_Read_terminates (fuel k : nat) (r : Reader) (rd : io_Reader)
    (pooled : nat -> byte) (p : list byte) :
  constructed r -> rander r = Some rd -> alphabet r <> [] ->
  p <> [] -> len p < 2 ^ 40 -> (k <= fuel)%nat ->
  Forall (fun x => x.2 = None)
    (batches k rd
       (scratch (spec_batch_size (mask r) (len p) (len (alphabet r))) pooled)) ->
  (length p <=
   length (symbols r (concat ((batches k rd
     (scratch (spec_batch_size (mask r) (len p) (len (alphabet r))) pooled)).*1))))%nat ->
  res_out (Read fuel r pooled p) = Returns (length p, None) /\
  (length (res_trace (Read fuel r pooled p)) <= k)%nat /\
  length (res_p (Read fuel r pooled p)) = length p /\
  Forall (fun c => c ∈ alphabet r) (res_p (Read fuel r pooled p)).
Proof.
  intros Hc Hrd Hal Hp Hlen Hk Hok Hfill.
  assert (Hn : 1 <= len p).
  { pose proof (len_nonneg p). pose proof (len_nil_iff p).
    destruct (Z.eq_dec (len p) 0); [tauto|lia]. }
  destruct (constructed_getRandomSize r (len p) Hc Hal ltac:(lia))
    as [Hsize Hpos].
  destruct (Read_custom_fills fuel k r rd pooled p _ Hp Hal Hrd Hsize
              ltac:(lia) Hk Hok Hfill) as (Hout & Hl & Hin).
  split; [exact Hout|]. split; [|split; assumption].
  destruct (Read_custom fuel r pooled p Hp Hal)
    as [[msg Hr]|(rd' & size & Hrd' & _ & Hsize' & _ & Hr)].
  { rewrite Hr in Hout. discriminate. }
  rewrite Hr. rewrite Hrd in Hrd'. injection Hrd' as <-.
  rewrite Hsize in Hsize'. injection Hsize' as <-.
  apply readLoop_trace_le; [exact Hk|destruct p; [done|simpl; lia]| |];
    assumption.
Qed.

Lemma X3_Read_terminates_witness :
  let r := {| rander := Some (newCustomRandReader 1024);
              alphabet := customAlphabet; mask := 63 |} in
  let p := replicate 21 "000"%byte in
  res_out (Read 1 r freshPool p) = Returns (length p, None) /\
  (length (res_trace (Read 1 r freshPool p)) <= 1)%nat /\
  length (res_p (Read 1 r freshPool p)) = length p /\
  Forall (fun c => c ∈ alphabet r) (res_p (Read 1 r freshPool p)).
Proof.
  intros r p.
  apply (X3_Read_terminates 1 1 r (newCustomRandReader 1024) freshPool p).
  - split; [discriminate|]. right. split; [vm_compute; split; discriminate|].
    reflexivity.
  - reflexivity.
  - discriminate.
  - discriminate.
  - reflexivity.
  - lia.
  - vm_compute. repeat constructor.
  - vm_compute. lia.
Defined.

(** ** Which byte values give which character *)

Lemma byte_val_of_int (z : Z) : 0 <= z < 256 -> byte_val (byte_of_int z) = z.
Proof.
  intros Hz. unfold byte_of_int, byte_val, to_byte. rewrite Z.mod_small by lia.
  pose proof (Byte.to_of_N_option_map (Z.to_N z)) as H.
  replace (Z.to_N z <=? 255)%N with true in H
    by (symmetry; apply N.leb_le; lia).
  destruct (Byte.of_N (Z.to_N z)) as [b|]; [|discriminate].
  simpl in *. injection H as ->. lia.
Qed.

Lemma byte_of_int_val (b : byte) : byte_of_int (byte_val b) = b.
Proof.
  pose proof (byte_val_range b). unfold byte_of_int, to_byte.
  rewrite Z.mod_small by lia. unfold byte_val.
  rewrite N2Z.id, Byte.of_to_N. reflexivity.
Qed.

Lemma all_bytes_complete (b : byte) : In b all_bytes.
Proof.
  apply list_elem_of_In. unfold all_bytes. apply list_elem_of_fmap.
  exists (Z.to_nat (byte_val b)). pose proof (byte_val_range b).
  split; [rewrite Z2Nat.id by lia; symmetry; apply byte_of_int_val|].
  apply elem_of_seq. lia.
Qed.

Lemma all_bytes_NoDup : NoDup all_bytes.
Proof.
  unfold all_bytes. apply NoDup_fmap_2_strong; [|apply NoDup_seq].
  intros x y Hx Hy H. apply elem_of_seq in Hx, Hy.
  apply (f_equal byte_val) in H. rewrite !byte_val_of_int in H by lia. lia.
Qed.

Lemma maskOf_cases (size : Z) :
  1 <= size <= 256 ->
  In (maskOf size) [1; 3; 7; 15; 31; 63; 127; 255].
Proof.
  intros H. destruct (Z.eq_dec size 1) as [->|Hn]; [left; reflexivity|].
  unfold maskOf. rewrite log2_lor_1 by lia.
  assert (Hlt : Z.log2 (size - 1) < 8) by (apply Z.log2_lt_pow2; lia).
  pose proof (Z.log2_nonneg (size - 1)) as H0.
  assert (Hc : In (Z.log2 (size - 1)) [0; 1; 2; 3; 4; 5; 6; 7])
    by (simpl; lia).
  simpl in Hc.
  destruct Hc as [<-|[<-|[<-|[<-|[<-|[<-|[<-|[<-|[]]]]]]]]]; simpl; tauto.
Qed.

Lemma masked_count (m i : Z) :
  In m [1; 3; 7; 15; 31; 63; 127; 255] -> 0 <= i <= m ->
  Z.of_nat (length (masked m i)) * (m + 1) = 256.
Proof.
  intros Hm Hi.
  assert (Hall : forallb (fun j => Z.of_nat (length (masked m (Z.of_nat j)))
                                     * (m + 1) =? 256)
                   (seq 0 (Z.to_nat (m + 1))) = true).
  { simpl in Hm.
    destruct Hm as [<-|[<-|[<-|[<-|[<-|[<-|[<-|[<-|[]]]]]]]]];
      vm_compute; reflexivity. }
  rewrite forallb_forall in Hall.
  specialize (Hall (Z.to_nat i) ltac:(apply in_seq; lia)).
  rewrite Z2Nat.id in Hall by lia. apply Z.eqb_eq. exact Hall.
Qed.

Lemma hits_masked (r : Reader) (c : byte) (i : nat) :
  len (alphabet r) <= 255 -> 0 <= mask r <= 255 ->
  NoDup (alphabet r) -> alphabet r !! i = Some c ->
  hits r c = masked (mask r) (Z.of_nat i).
Proof.
  intros HL HM Hnd Hc. unfold hits, masked. apply filter_ext. intros b.
  destruct (accepted_below_256 r b HL HM) as [Hacc Hlook].
  assert (H0 : 0 <= Z.land (byte_val b) (mask r))
    by (apply Z.land_nonneg; lia).
  apply Bool.eq_iff_eq_true. rewrite andb_true_iff, Z.eqb_eq. split.
  - intros [Ha He]. apply byte_dec_bl in He. specialize (Hlook Ha).
    rewrite He in Hlook.
    pose proof (NoDup_lookup _ _ _ _ Hnd Hlook Hc). lia.
  - intros Hi. apply lookup_lt_Some in Hc as Hlt. unfold len in *.
    assert (Ha : accepted r b = true) by (apply Hacc; lia).
    split; [exact Ha|]. apply byte_dec_lb. specialize (Hlook Ha).
    rewrite Hi, Nat2Z.id, Hc in Hlook. congruence.
Qed.

(** X4. For an alphabet of at most 255 distinct characters, the reader
    [WithAlphabet] configures turns equally many byte values into each
    character: exactly [256 / (mask + 1)] of the 256 values.  The list
    [hits r c] holds, once each, the byte values that are accepted and
    give the character [c]. *)
Theorem X4_custom_uniform (a : list byte) (r0 r : Reader) (c : byte) :
  len a <= 255 -> NoDup a -> c ∈ a ->
  WithAlphabet a r0 = Returns (r, None) ->
  NoDup (hits r c) /\
  (forall b, b ∈ hits r c <-> accepted r b = true /\ symbol r b = c) /\
  Z.of_nat (length (hits r c)) * (mask r + 1) = 256.
Proof.
  intros HL Hnd Hc Hw.
  split; [apply NoDup_ListNoDup, List.NoDup_filter, NoDup_ListNoDup, all_bytes_NoDup|]. split.
  { intros b. rewrite list_elem_of_In. unfold hits. rewrite filter_In.
    rewrite andb_true_iff. split.
    - intros [_ [Ha He]]. split; [exact Ha|apply byte_dec_bl, He].
    - intros [Ha He]. split; [apply all_bytes_complete|].
      split; [exact Ha|apply byte_dec_lb, He]. }
  assert (Hlen : 1 <= len a).
  { destruct a; [inversion Hc|]. unfold len. simpl. lia. }
  rewrite WithAlphabet_ok in Hw by lia. injection Hw as <-.
  apply list_elem_of_lookup in Hc as [i Hi].
  pose proof (maskOf_bounds (len a) Hlen) as Hb.
  pose proof (maskOf_le_255 (len a) ltac:(lia)) as H255.
  rewrite (hits_masked _ c i); cbn [alphabet mask]; try assumption; try lia.
  apply masked_count; [apply maskOf_cases; lia|].
  apply lookup_lt_Some in Hi. unfold len in *. lia.
Qed.

Lemma X4_custom_uniform_witness :
  let r := {| rander := None; alphabet := customAlphabet; mask := 63 |} in
  NoDup (hits r "Z"%byte) /\
  (forall b, b ∈ hits r "Z"%byte <->
             accepted r b = true /\ symbol r b = "Z"%byte) /\
  Z.of_nat (length (hits r "Z"%byte)) * (mask r + 1) = 256.
Proof.
  intros r.
  apply (X4_custom_uniform customAlphabet
           {| rander := None; alphabet := []; mask := 0 |} r "Z"%byte).
  - vm_compute. discriminate.
  - apply (NoDup_fmap_1 byte_val). vm_compute.
    repeat (constructor; [rewrite ?list_elem_of_In; simpl; intuition lia|]).
    constructor.
  - apply list_elem_of_In. vm_compute. tauto.
  - reflexivity.
Defined.

Lemma defaultSymbol_lookup (b : byte) :
  DefaultAlphabet !! Z.to_nat (Z.land (byte_val b) 63) = Some (defaultSymbol b).
Proof.
  unfold defaultSymbol. rewrite nth_lookup.
  destruct (DefaultAlphabet !! Z.to_nat (Z.land (byte_val b) 63)) eqn:E;
    [reflexivity|].
  apply lookup_ge_None in E. change (length DefaultAlphabet) with 64%nat in E.
  change 63 with (Z.ones 6) in E. rewrite Z.land_ones in E by lia.
  pose proof (Z.mod_pos_bound (byte_val b) (2 ^ 6) ltac:(lia)). lia.
Qed.

Lemma DefaultAlphabet_NoDup : NoDup DefaultAlphabet.
Proof.
  apply (NoDup_fmap_1 byte_val).
  apply (bool_decide_unpack _). vm_compute. exact I.
Qed.

(** X5. [DefaultAlphabet] has 64 distinct characters, and the default path
    of [Read], which stores [DefaultAlphabet[b&63]] for the byte [b], turns
    exactly 4 of the 256 byte values into each of them and none into
    anything else; two bytes give the same character exactly when they
    agree on their low six bits. *)
Theorem X5_default_uniform (c : byte) :
  NoDup DefaultAlphabet /\ len DefaultAlphabet = 64 /\
  NoDup (defaultHits c) /\
  (forall b, b ∈ defaultHits c <-> defaultSymbol b = c) /\
  (c ∈ DefaultAlphabet -> length (defaultHits c) = 4%nat) /\
  (c ∉ DefaultAlphabet -> defaultHits c = []) /\
  (forall b b', defaultSymbol b = defaultSymbol b' <->
                Z.land (byte_val b) 63 = Z.land (byte_val b') 63).
Proof.
  split; [exact DefaultAlphabet_NoDup|]. split; [reflexivity|].
  split; [apply NoDup_ListNoDup, List.NoDup_filter, NoDup_ListNoDup,
            all_bytes_NoDup|].
  assert (Hmem : forall b, b ∈ defaultHits c <-> defaultSymbol b = c).
  { intros b. rewrite list_elem_of_In. unfold defaultHits. rewrite filter_In.
    split.
    - intros [_ He]. apply byte_dec_bl, He.
    - intros He. split; [apply all_bytes_complete|apply byte_dec_lb, He]. }
  split; [exact Hmem|]. split; [|split].
  - intros Hc. apply list_elem_of_In in Hc.
    assert (Hall : forallb (fun x => (length (defaultHits x) =? 4)%nat)
                     DefaultAlphabet = true) by (vm_compute; reflexivity).
    rewrite forallb_forall in Hall. apply Nat.eqb_eq, Hall, Hc.
  - intros Hc. destruct (defaultHits c) as [|b l] eqn:E; [reflexivity|].
    exfalso. apply Hc. assert (Hb : b ∈ b :: l) by left.
    apply Hmem in Hb. rewrite <- Hb.
    eapply list_elem_of_lookup_2, defaultSymbol_lookup.
  - intros b b'. pose proof (defaultSymbol_lookup b) as H1.
    pose proof (defaultSymbol_lookup b') as H2.
    assert (0 <= Z.land (byte_val b) 63) by (apply Z.land_nonneg; lia).
    assert (0 <= Z.land (byte_val b') 63) by (apply Z.land_nonneg; lia).
    split.
    + intros E. rewrite E in H1.
      pose proof (NoDup_lookup _ _ _ _ DefaultAlphabet_NoDup H1 H2). lia.
    + intros E. rewrite E in H1. congruence.
Qed.

Lemma X5_default_uniform_witness :
  length (defaultHits "M"%byte) = 4%nat.
Proof.
  apply (X5_default_uniform "M"%byte). apply list_elem_of_In.
  vm_compute. tauto.
Defined.

(** ** Alphabets whose length is a power of two *)

Lemma symbols_all (r : Reader) (bytes : list byte) :
  (forall b, accepted r b = true) -> symbols r bytes = symbol r <$> bytes.
Proof.
  intros H. unfold symbols. f_equal.
  induction bytes as [|b bytes IH]; [reflexivity|].
  rewrite filter_cons, decide_True by apply H. f_equal. exact IH.
Qed.

Lemma accepted_power_of_two (r : Reader) (b : byte) :
  mask r = maskOf (len (alphabet r)) -> len (alphabet r) = mask r + 1 ->
  2 <= len (alphabet r) <= 255 ->
  accepted r b = true.
Proof.
  intros HM HL Hlen.
  pose proof (maskOf_le_255 (len (alphabet r)) ltac:(lia)) as H255.
  apply (accepted_below_256 r b); [lia|lia|].
  rewrite HL. rewrite HM at 1. unfold maskOf.
  pose proof (Z.log2_nonneg (Z.lor (len (alphabet r) - 1) 1)).
  rewrite Z.sub_1_r, <- Z.ones_equiv, Z.land_ones by lia.
  pose proof (byte_val_range b).
  pose proof (Z.mod_pos_bound (byte_val b)
                (2 ^ (1 + Z.log2 (Z.lor (len (alphabet r) - 1) 1)))
                ltac:(apply Z.pow_pos_nonneg; lia)) as Hmod.
  unfold maskOf in HM. lia.
Qed.

(** X6. For an alphabet of 4, 8, 16, 32, 64 or 128 characters no byte is
    rejected and the batch is at least as long as the slice, so [Read]
    calls the source exactly once: when that call gives no error, the slice
    is filled with the characters of the first bytes of the batch, one for
    one; when it gives an error, [Read] returns 0 and that error and the
    slice is as it was. *)
Theorem X6_power_of_two_one_call (fuel : nat) (r : Reader) (rd : io_Reader)
    (pooled : nat -> byte) (p : list byte) :
  rander r = Some rd ->
  mask r = maskOf (len (alphabet r)) -> len (alphabet r) = mask r + 1 ->
  4 <= len (alphabet r) <= 128 ->
  p <> [] -> len p < 2 ^ 40 ->
  exists ev,
    res_trace (Read (S fuel) r pooled p) = [ev] /\
    (ev_err ev = None ->
     res_out (Read (S fuel) r pooled p) = Returns (length p, None) /\
     res_p (Read (S fuel) r pooled p) = symbol r <$> take (length p) (ev_buf ev)) /\
    (forall e, ev_err ev = Some e ->
     res_out (Read (S fuel) r pooled p) = Returns (0%nat, Some e) /\
     res_p (Read (S fuel) r pooled p) = p).
Proof.
  intros Hrd HM HL Hlen Hp Hsz.
  assert (Hal : alphabet r <> []).
  { intros E. rewrite E in Hlen. unfold len in Hlen. simpl in Hlen. lia. }
  assert (Hn : 1 <= len p).
  { pose proof (len_nonneg p). pose proof (len_nil_iff p).
    destruct (Z.eq_dec (len p) 0); [tauto|lia]. }
  assert (Hacc : forall b, accepted r b = true)
    by (intros b; apply accepted_power_of_two; [exact HM|exact HL|lia]).
  assert (Hprod : mask r * len p < 2 ^ 48).
  { apply Z.le_lt_trans with (127 * len p); [|lia].
    apply Z.mul_le_mono_nonneg_r; lia. }
  destruct (Read_custom (S fuel) r pooled p Hp Hal)
    as [[msg Hr]|(rd' & size & Hrd' & _ & Hsize & Hslen & Hr)].
  { exfalso. unfold Read in Hr.
    replace (len p =? 0) with false in Hr by (symmetry; apply Z.eqb_neq; lia).
    replace (len (alphabet r) =? 0) with false in Hr
      by (symmetry; apply Z.eqb_neq; lia).
    rewrite getRandomSize_value in Hr by lia.
    pose proof (spec_batch_size_pos (mask r) (len p) (len (alphabet r))
                  ltac:(lia) ltac:(lia) ltac:(lia)) as Hpos.
    replace (spec_batch_size (mask r) (len p) (len (alphabet r)) <? 0)
      with false in Hr by (symmetry; apply Z.ltb_ge; lia).
    rewrite Hrd in Hr. cbn [readLoop] in Hr.
    destruct (call_Read rd _) as [[[random1 cnt] err] rd1].
    apply (f_equal res_trace) in Hr. discriminate. }
  rewrite Hrd in Hrd'. injection Hrd' as <-.
  rewrite getRandomSize_value in Hsize by lia. injection Hsize as Hsize.
  pose proof (spec_batch_size_ge (mask r) (len p) (len (alphabet r))
                ltac:(lia) ltac:(lia) ltac:(lia)) as Hge.
  rewrite Hsize in Hge.
  rewrite Hr. cbn [readLoop].
  destruct (call_Read rd (scratch size pooled)) as [[[random1 cnt] err] rd1]
    eqn:Hcall.
  pose proof (call_Read_length _ _ _ _ _ _ Hcall) as Hlen1.
  destruct err as [e|].
  - eexists. split; [reflexivity|]. split; [discriminate|].
    intros e' [= <-]. split; reflexivity.
  - assert (H0 : (0 < length p)%nat) by (unfold len in Hn; lia).
    pose proof (scan_spec r random1 p 0 H0) as Hscan.
    rewrite symbols_all in Hscan by exact Hacc.
    rewrite length_fmap in Hscan.
    destruct (scan r random1 p 0) as [p' n'|p' n'|]; [| |done].
    + destruct Hscan as (-> & _ & ->).
      eexists. split; [reflexivity|]. split; [|discriminate].
      intros _. split; [reflexivity|]. cbn [with_event res_p ev_buf].
      rewrite take_0, Nat.sub_0_r, fmap_take. reflexivity.
    + destruct Hscan as (-> & Hlt & _). unfold len in *. lia.
Qed.

Lemma X6_power_of_two_one_call_witness :
  let r := {| rander := Some (newCustomRandReader 1024);
              alphabet := customAlphabet; mask := 63 |} in
  let p := replicate 21 "000"%byte in
  exists ev,
    res_trace (Read 1 r freshPool p) = [ev] /\
    (ev_err ev = None ->
     res_out (Read 1 r freshPool p) = Returns (length p, None) /\
     res_p (Read 1 r freshPool p) = symbol r <$> take (length p) (ev_buf ev)) /\
    (forall e, ev_err ev = Some e ->
     res_out (Read 1 r freshPool p) = Returns (0%nat, Some e) /\
     res_p (Read 1 r freshPool p) = p).
Proof.
  intros r p.
  apply (X6_power_of_two_one_call 0 r (newCustomRandReader 1024) freshPool p).
  - reflexivity.
  - reflexivity.
  - reflexivity.
  - vm_compute. split; discriminate.
  - discriminate.
  - reflexivity.
Defined.

(** ** The pooled scratch slice *)

Lemma scratch_length (size : Z) (pooled : nat -> byte) :
  length (scratch size pooled) = Z.to_nat size.
Proof.
  unfold scratch. destruct (size <=? bufSliceSize).
  - rewrite length_map, length_seq. reflexivity.
  - apply length_replicate.
Qed.

Lemma call_Read_oblivious (rd : io_Reader) (buf buf' : list byte) :
  oblivious rd -> fills rd -> length buf = length buf' ->
  (call_Read rd buf).1.1.2 = (call_Read rd buf').1.1.2 /\
  (call_Read rd buf).1.2 = (call_Read rd buf').1.2 /\
  (call_Read rd buf).2 = (call_Read rd buf').2 /\
  ((call_Read rd buf).1.2 = None ->
   (call_Read rd buf).1.1.1 = (call_Read rd buf').1.1.1).
Proof.
  intros Hobl Hfill Hlen. unfold call_Read.
  rewrite <- (Hobl (io_cur rd) buf buf' Hlen).
  specialize (Hfill (io_cur rd) buf).
  destruct (io_Read rd (io_cur rd) buf) as [[[stored cnt] err] st].
  cbn [fst snd] in *. repeat split. intros Herr. specialize (Hfill Herr).
  unfold slice_store. rewrite <- Hlen.
  rewrite !drop_ge by lia. reflexivity.
Qed.

Lemma readLoop_oblivious (fuel : nat) (r : Reader) (rd : io_Reader)
    (random random' p : list byte) (n : nat) :
  oblivious rd -> fills rd -> length random = length random' ->
  res_out (readLoop fuel r rd random p n) =
    res_out (readLoop fuel r rd random' p n) /\
  res_p (readLoop fuel r rd random p n) =
    res_p (readLoop fuel r rd random' p n) /\
  res_reader (readLoop fuel r rd random p n) =
    res_reader (readLoop fuel r rd random' p n).
Proof.
  intros Hobl Hfill Hlen. destruct fuel as [|fuel]; [done|]. cbn [readLoop].
  destruct (call_Read_oblivious rd random random' Hobl Hfill Hlen)
    as (Hc & He & Hrd & Hb).
  destruct (call_Read rd random) as [[[b1 c1] e1] rd1].
  destruct (call_Read rd random') as [[[b2 c2] e2] rd2].
  cbn [fst snd] in *. subst c2 e2 rd2.
  destruct e1 as [e|]; [done|]. rewrite <- (Hb eq_refl). done.
Qed.

(** X7. A source whose answer does not depend on what the slice holds and
    which, when it gives no error, overwrites the whole slice, keeps stale
    pool content out of the result: what [Read] returns, what it leaves in
    the caller's slice and where it leaves the source are the same whatever
    the pooled slice held. *)
Theorem X7_pool_content_unused (fuel : nat) (r : Reader) (rd : io_Reader)
    (pooled pooled' : nat -> byte) (p : list byte) :
  rander r = Some rd -> oblivious rd -> fills rd ->
  res_out (Read fuel r pooled p) = res_out (Read fuel r pooled' p) /\
  res_p (Read fuel r pooled p) = res_p (Read fuel r pooled' p) /\
  res_reader (Read fuel r pooled p) = res_reader (Read fuel r pooled' p).
Proof.
  intros Hrd Hobl Hfill. unfold Read.
  destruct (len p =? 0); [done|].
  destruct (len (alphabet r) =? 0); [done|].
  destruct (getRandomSize r (len p)) as [size|msg|]; [|done|done].
  destruct (size <? 0); [done|]. rewrite Hrd.
  apply readLoop_oblivious; [exact Hobl|exact Hfill|].
  rewrite !scratch_length. reflexivity.
Qed.

Lemma customRandReader_oblivious (data : option (list byte)) :
  oblivious (customRandReader data).
Proof.
  intros st buf buf' H. simpl. unfold customRandReader_Read.
  rewrite H. reflexivity.
Qed.

Lemma customRandReader_fills (data : option (list byte)) :
  fills (customRandReader data).
Proof.
  intros st buf. simpl. unfold customRandReader_Read.
  destruct st as [d|]; [|discriminate]. cbn [fst snd].
  destruct (Nat.min (length buf) (length d) <? length buf)%nat eqn:E;
    [discriminate|].
  intros _. apply Nat.ltb_ge in E. rewrite length_take. lia.
Qed.

Lemma X7_pool_content_unused_witness :
  let r := abReader (newCustomRandReader 1024) in
  let p := replicate 5 "000"%byte in
  res_out (Read 3 r freshPool p) = res_out (Read 3 r (fun _ => "A"%byte) p) /\
  res_p (Read 3 r freshPool p) = res_p (Read 3 r (fun _ => "A"%byte) p) /\
  res_reader (Read 3 r freshPool p) =
    res_reader (Read 3 r (fun _ => "A"%byte) p).
Proof.
  intros r p.
  apply (X7_pool_content_unused 3 r (newCustomRandReader 1024)).
  - reflexivity.
  - apply customRandReader_oblivious.
  - apply customRandReader_fills.
Defined.

Lemma spec_batch_size_le (M N L C : Z) :
  1 <= L -> 8 * (M * N) <= C * (5 * L) -> spec_batch_size M N L <= C.
Proof.
  intros HL H. unfold spec_batch_size.
  pose proof (ceil_div_spec (8 * (M * N)) (5 * L) ltac:(lia)) as [Hc _].
  set (X := ceil_div (8 * (M * N)) (5 * L)) in *.
  assert ((X - 1) * (5 * L) < C * (5 * L)) by lia.
  assert (X - 1 < C); [|lia].
  apply (Z.mul_lt_mono_pos_r (5 * L)); lia.
Qed.

(** X8. For a reader built by [NewReader] with a custom alphabet and a
    slice of 1 to 40 bytes, [getRandomSize] gives between 1 and
    [bufSliceSize] bytes, so [Read] takes its scratch slice from the pool.
    The bound 40 cannot be raised for all alphabets: with 129 characters
    (mask 255) a slice of 41 bytes needs 130. *)
Theorem X8_scratch_from_pool (r : Reader) (N : Z) :
  constructed r -> alphabet r <> [] -> 1 <= N <= 40 ->
  (exists size,
      getRandomSize r N = Returns size /\ 1 <= size <= bufSliceSize) /\
  getRandomSize {| rander := None; alphabet := take 129 alphabet256;
                   mask := maskOf 129 |} 41 = Returns 130.
Proof.
  intros Hc Hal HN. split; [|vm_compute; reflexivity].
  destruct (constructed_getRandomSize r N Hc Hal ltac:(lia)) as [Hsize Hpos].
  eexists. split; [exact Hsize|]. split; [lia|].
  destruct Hc as [_ [Hnil|[HL HM]]]; [done|].
  pose proof (maskOf_bounds (len (alphabet r)) ltac:(lia)) as Hb.
  rewrite <- HM in Hb. unfold bufSliceSize.
  apply spec_batch_size_le; [lia|].
  assert (mask r * N <= mask r * 40)
    by (apply Z.mul_le_mono_nonneg_l; lia).
  lia.
Qed.

Lemma X8_scratch_from_pool_witness :
  exists size,
    getRandomSize {| rander := Some (newCustomRandReader 1024);
                     alphabet := customAlphabet; mask := 63 |} 21
      = Returns size /\
    1 <= size <= bufSliceSize.
Proof.
  apply (X8_scratch_from_pool
           {| rander := Some (newCustomRandReader 1024);
              alphabet := customAlphabet; mask := 63 |} 21).
  - split; [discriminate|]. right. split; [vm_compute; split; discriminate|].
    reflexivity.
  - discriminate.
  - lia.
Defined.

(** ** NewReader: later options override earlier ones *)

(** X9. When [NewReader] is given options that all pass their checks, it
    returns a reader and no error, and of several options of the same kind
    the last one wins: the source is that of the last [WithRandReader],
    else [rand.Reader]; the alphabet is that of the last [WithAlphabet],
    with the mask of its length, else there is none and the mask is 0.
    Options of different kinds do not affect each other. *)
Theorem X9_last_option_wins (rand_Reader : io_Reader) (opts : list option_arg) :
  Forall accepted_option opts ->
  exists r,
    NewReader rand_Reader (option_of <$> opts) = Returns (Some r, None) /\
    rander r = Some (List.last (sources_of opts) rand_Reader) /\
    alphabet r = List.last (alphabets_of opts) [] /\
    mask r = match alphabets_of opts with
             | [] => 0
             | _ => maskOf (len (alphabet r))
             end.
Proof.
  intros Hok. eexists. split.
  - unfold NewReader. apply applyOptions_valid.
    eapply Forall_impl; [exact Hok|]. apply accepted_option_valid.
  - exact (foldl_configure opts Hok
             {| rander := Some rand_Reader; alphabet := []; mask := 0 |}
             rand_Reader eq_refl).
Qed.

Lemma X9_last_option_wins_witness :
  let opts := [AlphabetArg customAlphabet;
               RandReaderArg (Some (newCustomRandReader 1024));
               AlphabetArg ["a"; "b"; "c"]%byte] in
  exists r,
    NewReader (newCustomRandReader 8) (option_of <$> opts) =
      Returns (Some r, None) /\
    rander r = Some (List.last (sources_of opts) (newCustomRandReader 8)) /\
    alphabet r = List.last (alphabets_of opts) [] /\
    mask r = match alphabets_of opts with
             | [] => 0
             | _ => maskOf (len (alphabet r))
             end.
Proof.
  intros opts. apply (X9_last_option_wins (newCustomRandReader 8) opts).
  repeat constructor; try discriminate; vm_compute; discriminate.
Defined.

(** ** The package-level functions *)

(** The default path, seen through what the source stored. *)
Lemma Read_default (fuel : nat) (r : Reader) (rd : io_Reader)
    (pooled : nat -> byte) (p : list byte) :
  alphabet r = [] -> rander r = Some rd -> p <> [] ->
  exists ev,
    res_trace (Read fuel r pooled p) = [ev] /\
    ev_len ev = length p /\ length (ev_buf ev) = length p /\
    (ev_err ev = None ->
     res_out (Read fuel r pooled p) = Returns (length p, None) /\
     res_p (Read fuel r pooled p) = defaultSymbol <$> ev_buf ev) /\
    (forall e, ev_err ev = Some e ->
     res_out (Read fuel r pooled p) = Returns (0%nat, Some e) /\
     res_p (Read fuel r pooled p) = ev_buf ev).
Proof.
  intros Hal Hrd Hp. unfold Read.
  replace (len p =? 0) with false
    by (symmetry; apply Z.eqb_neq; rewrite len_nil_iff; exact Hp).
  rewrite Hal, Hrd. cbn [len length Z.of_nat Z.eqb].
  destruct (call_Read rd p) as [[[p1 cnt] err] rd1] eqn:Hcall.
  pose proof (call_Read_length _ _ _ _ _ _ Hcall) as Hlen.
  destruct err as [e|].
  - eexists. split; [reflexivity|]. cbn [ev_len ev_buf ev_err].
    split; [reflexivity|]. split; [exact Hlen|]. split; [discriminate|].
    intros e' [= <-]. split; reflexivity.
  - rewrite encodeDefault_eq.
    eexists. split; [reflexivity|]. cbn [ev_len ev_buf ev_err].
    split; [reflexivity|]. split; [exact Hlen|]. split; [|discriminate].
    intros _. split; reflexivity.
Qed.

Lemma Read_error_returned (fuel : nat) (r : Reader) (pooled : nat -> byte)
    (p : list byte) (ev : event) (e : error) :
  ev ∈ res_trace (Read fuel r pooled p) -> ev_err ev = Some e ->
  exists n, res_out (Read fuel r pooled p) = Returns (n, Some e).
Proof.
  intros Hin Herr.
  pose proof (Read_spec fuel r pooled p) as Hspec. cbv zeta in Hspec.
  assert (Hbad : ~ Forall ev_ok (res_trace (Read fuel r pooled p))).
  { intros Hok. rewrite Forall_forall in Hok. specialize (Hok ev Hin).
    unfold ev_ok in Hok. congruence. }
  destruct (res_out (Read fuel r pooled p)) as [[n [e'|]]|msg|];
    [|destruct Hspec as [Hok _]; done|done|done].
  destruct Hspec as [(Hnil & _)|(pre & ev' & Htr & Herr' & Hok & _)].
  { rewrite Hnil in Hin. inversion Hin. }
  rewrite Htr in Hin. apply elem_of_app in Hin as [Hin|Hin].
  - rewrite Forall_forall in Hok. specialize (Hok ev Hin).
    unfold ev_ok in Hok. congruence.
  - apply list_elem_of_singleton in Hin as ->. exists n. congruence.
Qed.

Lemma Read_success_output (fuel : nat) (r : Reader) (pooled : nat -> byte)
    (p : list byte) (n : nat) :
  res_out (Read fuel r pooled p) = Returns (n, None) ->
  length (res_p (Read fuel r pooled p)) = length p /\
  Forall (fun c => c ∈ (if decide (alphabet r = []) then DefaultAlphabet
                        else alphabet r))
    (res_p (Read fuel r pooled p)).
Proof.
  intros Hout.
  assert (Hp : p <> []).
  { intros ->. unfold Read in Hout. simpl in Hout. discriminate. }
  destruct (decide (alphabet r = [])) as [Hal|Hal].
  - destruct (rander r) as [rd|] eqn:Hrd.
    + destruct (Read_default fuel r rd pooled p Hal Hrd Hp)
        as (ev & _ & _ & Hlen & Hok & Herr).
      destruct (ev_err ev) as [e|].
      * destruct (Herr e eq_refl) as [H _]. congruence.
      * destruct (Hok eq_refl) as [_ ->]. rewrite length_fmap.
        split; [exact Hlen|]. apply Forall_fmap, Forall_forall. intros b _.
        simpl. eapply list_elem_of_lookup_2, defaultSymbol_lookup.
    + exfalso. unfold Read in Hout.
      replace (len p =? 0) with false in Hout
        by (symmetry; apply Z.eqb_neq; rewrite len_nil_iff; exact Hp).
      rewrite Hal, Hrd in Hout. discriminate.
  - pose proof (Read_spec fuel r pooled p) as Hspec. cbv zeta in Hspec.
    rewrite Hout in Hspec. destruct Hspec as (_ & _ & Hres).
    destruct (Hres Hal) as [Hlen ->].
    split; [rewrite length_take; lia|].
    apply Forall_take, symbols_in_alphabet.
Qed.

Lemma NewWithSize_success (fuel : nat) (defaultReader : Reader)
    (pooled pooled' : nat -> byte) (size : Z) (id : list byte) :
  new_out (NewWithSize fuel defaultReader pooled pooled' size)
    = Returns (id, None) ->
  1 <= size /\ len id = size /\
  id = res_p (Read fuel defaultReader pooled' (scratch size pooled)).
Proof.
  unfold NewWithSize, package_Read.
  destruct (size <? 1) eqn:E; [discriminate|]. apply Z.ltb_ge in E.
  cbn [new_out].
  destruct (res_out (Read fuel defaultReader pooled' (scratch size pooled)))
    as [[n [e|]]|msg|] eqn:Hres; try discriminate.
  intros [= <-]. split; [exact E|]. split; [|reflexivity].
  destruct (Read_success_output _ _ _ _ _ Hres) as [Hlen _].
  unfold len. rewrite Hlen, scratch_length. lia.
Qed.

(** X10. [NewWithSize], whatever [defaultReader] is set to: a size below 1
    gives the empty string and the error "size is too small" without a
    call to the source and without touching the pool; a call that returns
    no error returns an ID of exactly [size] characters, all of the
    alphabet in use ([DefaultAlphabet] when the reader has none); a call
    that returns an error returns the empty string, never a partial ID;
    and an error of the source is returned as it is. *)
Theorem X10_NewWithSize_contract (fuel : nat) (defaultReader : Reader)
    (pooled pooled' : nat -> byte) (size : Z) :
  (size < 1 ->
   NewWithSize fuel defaultReader pooled pooled' size =
     {| new_out := Returns (zeroString, Some (errors_New "size is too small"));
        new_pool := pooled; new_reader := defaultReader; new_trace := [] |}) /\
  (forall id,
     new_out (NewWithSize fuel defaultReader pooled pooled' size)
       = Returns (id, None) ->
     1 <= size /\ len id = size /\
     Forall (fun c => c ∈ (if decide (alphabet defaultReader = [])
                           then DefaultAlphabet else alphabet defaultReader))
       id) /\
  (forall id e,
     new_out (NewWithSize fuel defaultReader pooled pooled' size)
       = Returns (id, Some e) ->
     id = zeroString) /\
  (forall ev e,
     ev ∈ new_trace (NewWithSize fuel defaultReader pooled pooled' size) ->
     ev_err ev = Some e ->
     new_out (NewWithSize fuel defaultReader pooled pooled' size)
       = Returns (zeroString, Some e)).
Proof.
  unfold NewWithSize, package_Read.
  destruct (size <? 1) eqn:E.
  { apply Z.ltb_lt in E. split; [reflexivity|]. split; [discriminate|].
    split; [intros id e [= <- _]; reflexivity|]. intros ev e H. inversion H. }
  apply Z.ltb_ge in E. split; [lia|]. cbn [new_out new_trace].
  set (res := Read fuel defaultReader pooled' (scratch size pooled)).
  split; [|split].
  - intros id Hout.
    destruct (res_out res) as [[n [e|]]|msg|] eqn:Hres; try discriminate.
    injection Hout as <-.
    destruct (Read_success_output _ _ _ _ _ Hres) as [Hlen Hin].
    split; [exact E|]. split; [|exact Hin].
    unfold len. fold res in Hlen. rewrite Hlen, scratch_length. lia.
  - intros id e Hout.
    destruct (res_out res) as [[n [e'|]]|msg|]; try discriminate.
    injection Hout as <- _. reflexivity.
  - intros ev e Hin Herr.
    destruct (Read_error_returned _ _ _ _ _ _ Hin Herr) as [n Hn].
    fold res in Hn. rewrite Hn. reflexivity.
Qed.

Lemma X10_NewWithSize_contract_witness :
  1 <= 21 /\ len (take 21 DefaultAlphabet) = 21 /\
  Forall (fun c => c ∈ DefaultAlphabet) (take 21 DefaultAlphabet).
Proof.
  apply (X10_NewWithSize_contract 1
           (defaultReaderOn (customRandReader (Some bytes_0_20)))
           freshPool freshPool 21).
  vm_compute. reflexivity.
Defined.

(** X11. [NewWithSize] does not clear the slice it hands back to the pool:
    after a call that returned an ID of at most [bufSliceSize] characters,
    the first bytes of the pooled slice are the characters of that ID and
    the bytes after them are what they were; for a longer ID the pool is
    not used. *)
Theorem X11_pool_keeps_id (fuel : nat) (defaultReader : Reader)
    (pooled pooled' : nat -> byte) (size : Z) (id : list byte) :
  new_out (NewWithSize fuel defaultReader pooled pooled' size)
    = Returns (id, None) ->
  (size <= bufSliceSize ->
   (forall i c, id !! i = Some c ->
      new_pool (NewWithSize fuel defaultReader pooled pooled' size) i = c) /\
   (forall i, (Z.to_nat size <= i)%nat ->
      new_pool (NewWithSize fuel defaultReader pooled pooled' size) i
        = pooled i)) /\
  (bufSliceSize < size ->
   new_pool (NewWithSize fuel defaultReader pooled pooled' size) = pooled).
Proof.
  intros Hout.
  destruct (NewWithSize_success fuel defaultReader pooled pooled' size id Hout)
    as (Hsize & Hlen & Hid).
  unfold NewWithSize, package_Read.
  replace (size <? 1) with false by (symmetry; apply Z.ltb_ge; lia).
  cbn [new_pool]. rewrite <- Hid. split.
  - intros Hle. replace (size <=? bufSliceSize) with true
      by (symmetry; apply Z.leb_le; exact Hle).
    unfold put_back. split.
    + intros i c Hi. rewrite Hi. reflexivity.
    + intros i Hi. rewrite lookup_ge_None_2; [reflexivity|].
      unfold len in Hlen. lia.
  - intros Hgt. replace (size <=? bufSliceSize) with false
      by (symmetry; apply Z.leb_gt; exact Hgt).
    reflexivity.
Qed.

Lemma X11_pool_keeps_id_witness :
  let res := NewWithSize 1 (defaultReaderOn (customRandReader (Some bytes_0_20)))
               freshPool freshPool 21 in
  (21 <= bufSliceSize ->
   (forall i c, take 21 DefaultAlphabet !! i = Some c -> new_pool res i = c) /\
   (forall i, (Z.to_nat 21 <= i)%nat -> new_pool res i = freshPool i)) /\
  (bufSliceSize < 21 -> new_pool res = freshPool).
Proof.
  intros res.
  apply (X11_pool_keeps_id 1
           (defaultReaderOn (customRandReader (Some bytes_0_20)))
           freshPool freshPool 21 (take 21 DefaultAlphabet)).
  vm_compute. reflexivity.
Defined.




(** ** How many byte values are accepted *)

Lemma accepted_eq (r : Reader) (b : byte) :
  len (alphabet r) <= 255 -> 0 <= mask r <= 255 ->
  accepted r b = (Z.land (byte_val b) (mask r) <? len (alphabet r)).
Proof.
  intros HL HM. pose proof (len_nonneg (alphabet r)).
  unfold accepted, position, to_byte. rewrite !Z.mod_small by lia.
  reflexivity.
Qed.

Lemma accepted_count (L : Z) :
  1 <= L <= 255 ->
  Z.of_nat (length (List.filter
                      (fun b => Z.land (byte_val b) (maskOf L) <? L)
                      all_bytes)) * (maskOf L + 1) = 256 * L.
Proof.
  intros HL.
  assert (Hall : forallb
            (fun j => Z.of_nat (length (List.filter
                        (fun b => Z.land (byte_val b) (maskOf (Z.of_nat j))
                                  <? Z.of_nat j) all_bytes))
                      * (maskOf (Z.of_nat j) + 1) =? 256 * Z.of_nat j)
            (seq 1 255) = true) by (vm_compute; reflexivity).
  rewrite forallb_forall in Hall.
  specialize (Hall (Z.to_nat L) ltac:(apply in_seq; lia)).
  rewrite Z2Nat.id in Hall by lia. apply Z.eqb_eq. exact Hall.
Qed.

(** X13. For an alphabet of [L <= 255] characters, the reader
    [WithAlphabet] configures accepts exactly [256 * L / (mask + 1)] of the
    256 byte values, which is at least half of them: a byte of the source
    is rejected with probability below one half. *)
Theorem X13_acceptance_rate (a : list byte) (r0 r : Reader) :
  1 <= len a <= 255 ->
  WithAlphabet a r0 = Returns (r, None) ->
  NoDup (acceptedBytes r) /\
  (forall b, b ∈ acceptedBytes r <-> accepted r b = true) /\
  Z.of_nat (length (acceptedBytes r)) * (mask r + 1) = 256 * len a /\
  128 <= Z.of_nat (length (acceptedBytes r)).
Proof.
  intros HL Hw.
  split; [apply NoDup_ListNoDup, List.NoDup_filter, NoDup_ListNoDup,
            all_bytes_NoDup|].
  split.
  { intros b. rewrite list_elem_of_In. unfold acceptedBytes.
    rewrite filter_In. split; [tauto|].
    intros H. split; [apply all_bytes_complete|exact H]. }
  rewrite WithAlphabet_ok in Hw by lia. injection Hw as <-.
  pose proof (maskOf_bounds (len a) ltac:(lia)) as Hb.
  pose proof (maskOf_le_255 (len a) ltac:(lia)) as H255.
  assert (Hcount : Z.of_nat (length (acceptedBytes
             {| rander := rander r0; alphabet := a; mask := maskOf (len a) |}))
           * (maskOf (len a) + 1) = 256 * len a).
  { unfold acceptedBytes.
    rewrite (filter_ext _ (fun b => Z.land (byte_val b) (maskOf (len a))
                                    <? len a)).
    - apply accepted_count. exact HL.
    - intros b. apply accepted_eq; simpl; lia. }
  cbn [mask]. split; [exact Hcount|].
  set (c := Z.of_nat (length (acceptedBytes _))) in *.
  apply (Z.mul_le_mono_pos_r _ _ (maskOf (len a) + 1)); lia.
Qed.

Lemma X13_acceptance_rate_witness :
  let r := {| rander := None; alphabet := ["a"; "b"; "c"]%byte; mask := 3 |} in
  NoDup (acceptedBytes r) /\
  (forall b, b ∈ acceptedBytes r <-> accepted r b = true) /\
  Z.of_nat (length (acceptedBytes r)) * (mask r + 1)
    = 256 * len ["a"; "b"; "c"]%byte /\
  128 <= Z.of_nat (length (acceptedBytes r)).
Proof.
  intros r.
  apply (X13_acceptance_rate ["a"; "b"; "c"]%byte
           {| rander := None; alphabet := []; mask := 0 |} r).
  - vm_compute. split; discriminate.
  - reflexivity.
Defined.

(** ** NewReader and Read together *)

(** X14. A reader that [NewReader] returns for options that pass their
    checks generates over the alphabet of the last [WithAlphabet] among
    them, or over [DefaultAlphabet] when there is none: whenever its [Read]
    returns a nil error, the count is the length of the slice and every
    byte of the slice is a character of that alphabet. *)
Theorem X14_NewReader_then_Read (rand_Reader : io_Reader)
    (opts : list option_arg) (r : Reader) (fuel : nat) (pooled : nat -> byte)
    (p : list byte) (n : nat) :
  Forall accepted_option opts ->
  NewReader rand_Reader (option_of <$> opts) = Returns (Some r, None) ->
  res_out (Read fuel r pooled p) = Returns (n, None) ->
  n = length p /\
  length (res_p (Read fuel r pooled p)) = length p /\
  Forall (fun c => c ∈ List.last (alphabets_of opts) DefaultAlphabet)
    (res_p (Read fuel r pooled p)).
Proof.
  intros Hok Hnew Hout.
  unfold NewReader in Hnew. rewrite applyOptions_valid in Hnew
    by (eapply Forall_impl; [exact Hok|]; apply accepted_option_valid).
  injection Hnew as <-.
  set (r := foldl spec_configure _ opts) in *.
  destruct (foldl_configure opts Hok
              {| rander := Some rand_Reader; alphabet := []; mask := 0 |}
              rand_Reader eq_refl) as (_ & Hal & _).
  fold r in Hal. cbn [alphabet] in Hal.
  destruct (Read_success_output fuel r pooled p n Hout) as [Hlen Hin].
  pose proof (Read_spec fuel r pooled p) as Hspec. cbv zeta in Hspec.
  rewrite Hout in Hspec. destruct Hspec as (_ & Hn & _).
  split; [exact Hn|]. split; [exact Hlen|].
  assert (Hne : Forall (fun a => a <> []) (alphabets_of opts)).
  { clear -Hok. induction Hok as [|o opts Ho _ IH]; [constructor|].
    destruct o as [a|rd].
    - change (alphabets_of (AlphabetArg a :: opts))
        with (a :: alphabets_of opts).
      constructor; [|exact IH]. simpl in Ho. intros ->.
      unfold len in Ho. simpl in Ho. lia.
    - exact IH. }
  destruct (alphabets_of opts) as [|a0 l] eqn:E.
  - simpl in Hal. rewrite Hal in Hin. simpl in Hin. exact Hin.
  - rewrite (last_default_irrelevant (a0 :: l) DefaultAlphabet []) by done.
    rewrite <- Hal in *.
    assert (Hr : alphabet r <> []).
    { rewrite Hal. rewrite Forall_forall in Hne. apply Hne.
      apply list_elem_of_In. rewrite <- Hal, Hal.
      destruct (exists_last (l := a0 :: l) ltac:(done)) as (l' & x & El).
      rewrite El, last_last. apply in_or_app. right. left. reflexivity. }
    destruct (decide (alphabet r = [])); [done|exact Hin].
Qed.

Lemma X14_NewReader_then_Read_witness :
  let opts := [AlphabetArg ["a"; "b"]%byte; AlphabetArg customAlphabet;
               RandReaderArg (Some (newCustomRandReader 1024))] in
  let r := {| rander := Some (newCustomRandReader 1024);
              alphabet := customAlphabet; mask := 63 |} in
  let p := replicate 21 "000"%byte in
  21%nat = length p /\
  length (res_p (Read 1 r freshPool p)) = length p /\
  Forall (fun c => c ∈ List.last (alphabets_of opts) DefaultAlphabet)
    (res_p (Read 1 r freshPool p)).
Proof.
  intros opts r p.
  apply (X14_NewReader_then_Read (newCustomRandReader 8) opts r 1 freshPool
           p 21).
  - repeat constructor; try discriminate; vm_compute; discriminate.
  - reflexivity.
  - vm_compute. reflexivity.
Defined.
